(** * rtck: the batch token checker of [src/api/main.py]

    A shallow embedding of the request-admission and fan-out code of the
    service: the per-client fixed-window rate limiter ([is_rate_limited],
    [cleanup_token_buckets]), the single-token verification
    ([check_token]) and the batch endpoint ([check_tokens]).

    Conventions of the embedding.
    - A Python [str] is the list of its Unicode code points.
    - [time.time()] and [random.random()] are inputs of the functions that
      call them. A clock reading is a float, given by the rational number
      of seconds it denotes; the difference of two readings is rounded as
      binary64 subtraction rounds it ([float_sub]).
    - The module-level [TOKEN_BUCKETS] is passed in and out explicitly.
    - The upstream authority, the JSON decoder and the event loop are the
      environment: what they answer is an input of the model. *)

From Stdlib Require Import ZArith QArith Qround Qpower Lqa Lia List Ascii String.
From Stdlib Require Import Floats.
From stdpp Require Import base option list gmap.

Local Open Scope Z_scope.

(** ** Python strings *)

Abbreviation str := (list N).

(** An ASCII literal as a Python string. *)
Definition lit (s : string) : str :=
  N_of_ascii <$> list_ascii_of_string s.

(** [str.isspace] on one character: the code points Python's [str.strip]
    removes when called without argument. *)
Definition is_space (c : N) : bool :=
  ((9 <=? c) && (c <=? 13) || (28 <=? c) && (c <=? 32)
   || (c =? 133) || (c =? 160) || (c =? 5760)
   || (8192 <=? c) && (c <=? 8202) || (c =? 8232) || (c =? 8233)
   || (c =? 8239) || (c =? 8287) || (c =? 12288))%N.

Fixpoint lstrip (s : str) : str :=
  match s with
  | c :: s' => if is_space c then lstrip s' else s
  | [] => []
  end.

Definition rstrip (s : str) : str := rev (lstrip (rev s)).

(** [token.strip()] *)
Definition strip (s : str) : str := rstrip (lstrip s).

(** A string that does not start with white space. *)
Definition head_ok (s : str) : Prop :=
  match s with [] => True | c :: _ => is_space c = false end.

(** Truth value of a string: [not token] holds of the empty string only. *)
Definition is_empty (s : str) : bool :=
  match s with [] => true | _ => false end.

(** [needle in haystack] on strings: substring test. *)
Fixpoint starts_with (p s : str) : bool :=
  match p, s with
  | [], _ => true
  | a :: p', b :: s' => (a =? b)%N && starts_with p' s'
  | _ :: _, [] => false
  end.

Fixpoint str_contains (needle hay : str) : bool :=
  starts_with needle hay ||
  match hay with
  | [] => false
  | _ :: hay' => str_contains needle hay'
  end.

(** ** Configuration (lines 24-27) *)

Definition RATE_LIMIT_DURATION : Q := 60.
Definition MAX_REQUESTS : Z := 1000.
Definition MAX_TOKENS_PER_REQUEST : nat := 5.
Definition MAX_CONCURRENT_CONNECTIONS : nat := 5000.

(** ** Float arithmetic on clock readings

    [time.time()] returns a binary64 float, and [a - b] on floats is the
    exact difference rounded to the nearest float, ties to the even
    significand. Floats are given by the rationals they denote; the
    exponent range is not bounded above, which the comparisons of a
    difference with 60 and 120 cannot tell from an overflow to infinity. *)

(** The exponent [e] with [2 ^ e <= q < 2 ^ (e + 1)], for [q > 0]. *)
Definition ilog2 (q : Q) : Z :=
  let k := Z.log2 (Qnum q) - Z.log2 (Zpos (Qden q)) in
  if Qle_bool (2 ^ k) q then k else k - 1.

(** Rounding to the nearest integer, ties to even. *)
Definition rne (m : Q) : Z :=
  let f := Qfloor m in
  match Qcompare (m - inject_Z f) (1 # 2) with
  | Lt => f
  | Gt => f + 1
  | Eq => if Z.even f then f else f + 1
  end.

(** The spacing of the floats around [q > 0]: 53 significant bits, and the
    spacing [2 ^ -1074] of the subnormal numbers below [2 ^ -1022]. *)
Definition ulp (q : Q) : Q := (2 ^ (Z.max (ilog2 q) (-1022) - 52))%Q.

Definition round_pos (q : Q) : Q := (inject_Z (rne (q / ulp q)) * ulp q)%Q.

(** The float nearest to [q]. *)
Definition round64 (q : Q) : Q :=
  match Qnum q with
  | Z0 => 0%Q
  | Zpos _ => round_pos q
  | Zneg _ => (- round_pos (- q))%Q
  end.

(** [a - b] on floats. *)
Definition float_sub (a b : Q) : Q := round64 (a - b).

(** The rational a finite binary64 float denotes, to compare [float_sub]
    with the subtraction of the primitive floats. *)
Definition Q_of_float (x : float) : Q :=
  match Prim2SF x with
  | S754_finite s m e => ((if s then -1 else 1) * inject_Z (Zpos m) * 2 ^ e)%Q
  | _ => 0%Q
  end.

(** ** The bucket table (line 28) *)

Record Bucket := { count : Z; reset_time : Q }.

Abbreviation Buckets := (gmap str Bucket).

(** [TOKEN_BUCKETS[ip]] on the [defaultdict]: a missing key is first bound
    to the factory's value, whose [reset_time] is the clock read by the
    factory. *)
Definition getitem (ip : str) (t_create : Q) (tb : Buckets) : Bucket * Buckets :=
  match tb !! ip with
  | Some b => (b, tb)
  | None =>
      let b := {| count := 0; reset_time := t_create |} in (b, <[ip := b]> tb)
  end.

(** The bucket an admission check works on: the stored one, or the
    factory's for an identity not seen before. *)
Definition bucket_of (ip : str) (t_create : Q) (tb : Buckets) : Bucket :=
  default {| count := 0; reset_time := t_create |} (tb !! ip).

(** The window test [current_time - bucket["reset_time"] >= RATE_LIMIT_DURATION]. *)
Definition window_elapsed (current_time : Q) (b : Bucket) : bool :=
  Qle_bool RATE_LIMIT_DURATION (float_sub current_time (reset_time b)).

(** [is_rate_limited] (lines 33-47). The bucket is a dictionary shared with
    the table, so every assignment to it is an update of the table. *)
Definition is_rate_limited (ip : str) (t_create current_time : Q) (tb : Buckets)
  : bool * Buckets :=
  let '(bucket, tb) := getitem ip t_create tb in
  let bucket :=
    if window_elapsed current_time bucket
    then {| count := 0; reset_time := current_time |}
    else bucket in
  let tb := <[ip := bucket]> tb in
  if MAX_REQUESTS <=? count bucket then (true, tb)
  else (false, <[ip := {| count := count bucket + 1;
                          reset_time := reset_time bucket |}]> tb).

(** The staleness test of the sweep:
    [current_time - bucket["reset_time"] >= RATE_LIMIT_DURATION * 2]. *)
Definition stale (current_time : Q) (b : Bucket) : bool :=
  Qle_bool (RATE_LIMIT_DURATION * 2) (float_sub current_time (reset_time b)).

(** [cleanup_token_buckets] (lines 116-123): collect the stale keys, then
    delete them one by one. *)
Definition expired_ips (current_time : Q) (tb : Buckets) : list str :=
  (filter (λ kv : str * Bucket, stale current_time kv.2) (map_to_list tb)).*1.

Definition cleanup_token_buckets (current_time : Q) (tb : Buckets) : Buckets :=
  foldl (λ tb ip, delete ip tb) tb (expired_ips current_time tb).

(** A run of admission checks of one client; each request comes with the
    two clock readings its check may take. *)
Fixpoint requests (ip : str) (clock : list (Q * Q)) (tb : Buckets)
  : list bool * Buckets :=
  match clock with
  | [] => ([], tb)
  | (t_create, now) :: clock' =>
      let '(r, tb) := is_rate_limited ip t_create now tb in
      let '(rs, tb) := requests ip clock' tb in
      (r :: rs, tb)
  end.

(** The tables the process can be in: it starts empty and is touched by
    admission checks and sweeps only. *)
Inductive reachable : Buckets → Prop :=
| reach_start : reachable ∅
| reach_check ip t_create now tb :
    reachable tb → reachable (is_rate_limited ip t_create now tb).2
| reach_sweep now tb :
    reachable tb → reachable (cleanup_token_buckets now tb).

(** The invariant of the table: no count above the limit (or below 0). *)
Definition bounded (tb : Buckets) : Prop :=
  ∀ ip b, tb !! ip = Some b → 0 <= count b <= MAX_REQUESTS.

(** ** Decoded JSON and exceptions *)

#[local] Set Warnings "-register-all".

(** What [refresh_response.json()] returns; [JNull] is Python's [None]. *)
Inductive json :=
| JNull
| JBool (b : bool)
| JNum (x : Q)
| JStr (s : str)
| JArr (xs : list json)
| JObj (items : list (str * json)).

(** The exceptions the model distinguishes, by where they are raised. *)
Inductive Exn :=
| TimeoutException (info : str)  (* httpx.TimeoutException, from client.post *)
| RequestError (info : str)      (* any other exception from client.post *)
| DecodeError (info : str)       (* raised by refresh_response.json() *)
| TypeError (v : json)           (* v supports neither `in` nor subscription by a string *)
| KeyError (k : str)             (* subscription of a dict by a missing key *)
| SetupError (info : str).       (* raised on entering the client context *)

Definition is_timeout (e : Exn) : bool :=
  match e with TimeoutException _ => true | _ => false end.

(** Computations that may raise. *)
Definition raising (A : Type) : Type := Exn + A.

Definition bind_raising {A B} (m : raising A) (k : A → raising B) : raising B :=
  match m with inl e => inl e | inr a => k a end.

Notation "'try' x <~ m 'in' k" := (bind_raising m (λ x, k))
  (at level 10, x name, m at level 100, k at level 200).

Definition ACCESS_TOKEN : str := lit "access_token".

Definition is_str (k : str) (v : json) : bool :=
  match v with JStr s => bool_decide (s = k) | _ => false end.

Fixpoint dict_get (k : str) (items : list (str * json)) : option json :=
  match items with
  | [] => None
  | (k', v) :: items' => if bool_decide (k' = k) then Some v else dict_get k items'
  end.

(** ["access_token" in response_data]: key membership on a dict, element
    membership on a list, substring on a string, [TypeError] otherwise. *)
Definition contains (k : str) (v : json) : raising bool :=
  match v with
  | JObj items => inr (bool_decide (is_Some (dict_get k items)))
  | JArr xs => inr (existsb (is_str k) xs)
  | JStr s => inr (str_contains k s)
  | _ => inl (TypeError v)
  end.

(** [response_data["access_token"]]: only a dict can be subscripted by a
    string. *)
Definition subscript (k : str) (v : json) : raising json :=
  match v with
  | JObj items =>
      match dict_get k items with Some x => inr x | None => inl (KeyError k) end
  | _ => inl (TypeError v)
  end.

(** ** Verification results (the dictionaries [check_token] returns) *)

Record Result := {
  status : str;
  message : str;
  access_token : json;
  refresh_token : option str
}.

(** The message literals, as code points. *)
(* "Token为空" *)
Definition MSG_EMPTY : str := lit "Token" ++ [20026; 31354]%N.
(* "Token有效" *)
Definition MSG_VALID : str := lit "Token" ++ [26377; 25928]%N.
(* "Token无效或已过期" *)
Definition MSG_EXPIRED : str :=
  lit "Token" ++ [26080; 25928; 25110; 24050; 36807; 26399]%N.
(* "请求超时" *)
Definition MSG_TIMEOUT : str := [35831; 27714; 36229; 26102]%N.
(* "Token验证失败: " *)
Definition MSG_FAILED : str := lit "Token" ++ [39564; 35777; 22833; 36133]%N ++ lit ": ".
(* "验证出错: " *)
Definition MSG_ERROR : str := [39564; 35777; 20986; 38169]%N ++ lit ": ".
Definition MSG_FORMAT : str := lit "Invalid token format".

Definition valid_result (credential : json) (token : str) : Result :=
  {| status := lit "valid"; message := MSG_VALID;
     access_token := credential; refresh_token := Some token |}.

Definition invalid_result (msg : str) : Result :=
  {| status := lit "invalid"; message := msg;
     access_token := JNull; refresh_token := None |}.

Definition is_valid (r : Result) : bool := bool_decide (status r = lit "valid").

(** ** The upstream authority, as seen by one call *)

Record Response := {
  status_code : Z;
  json_body : raising json   (* what .json() does on the body *)
}.

Inductive PostOutcome :=
| PostRaises (e : Exn)
| PostReturns (r : Response).

(** What one scheduled task meets: whether entering the client context
    fails, and what the POST does. *)
Record TaskWorld := {
  setup_fault : option Exn;
  post : PostOutcome
}.

Inductive Event :=
| EAcquire                    (* the task entered the semaphore *)
| EPost (refresh_token : str) (* one POST to the authority *)
| ERelease.                   (* the task left the semaphore *)

(** ** [check_token] (lines 49-113) *)

Section Verification.

(** [str(e)], the text Python gives an exception. *)
Variable describe : Exn → str.

(** Lines 64-90: the POST and the reading of its response. *)
Definition exchange (token : str) (p : PostOutcome) : raising Result :=
  match p with
  | PostRaises e => inl e
  | PostReturns refresh_response =>
      if status_code refresh_response =? 200 then
        try response_data <~ json_body refresh_response in
        try has <~ contains ACCESS_TOKEN response_data in
        if has : bool then
          try credential <~ subscript ACCESS_TOKEN response_data in
          inr (valid_result credential token)
        else inr (invalid_result MSG_EXPIRED)
      else inr (invalid_result MSG_EXPIRED)
  end.

(** Lines 63-105: the inner [try] with its two handlers. *)
Definition guarded_exchange (token : str) (p : PostOutcome) : Result :=
  match exchange token p with
  | inr r => r
  | inl e =>
      if is_timeout e then invalid_result MSG_TIMEOUT
      else invalid_result (MSG_FAILED ++ describe e)
  end.

(** The whole coroutine. The semaphore and the client context are entered
    before the [try]: a fault there leaves the task with an exception. The
    outer handler (lines 107-113) guards [strip] and the inner handlers,
    none of which raises here, so its message [MSG_ERROR] is never built. *)
Definition check_token (token : str) (w : TaskWorld)
  : list Event * raising Result :=
  match setup_fault w with
  | Some e => ([EAcquire; ERelease], inl e)
  | None =>
      let token := strip token in
      if is_empty token
      then ([EAcquire; ERelease], inr (invalid_result MSG_EMPTY))
      else ([EAcquire; EPost token; ERelease],
            inr (guarded_exchange token (post w)))
  end.

(** ** [check_tokens] (lines 125-176) *)

(** Lines 151-156: one task per token that is not blank, on the trimmed
    token. *)
Fixpoint make_tasks (tokens : list str) : list str :=
  match tokens with
  | [] => []
  | token :: rest =>
      if is_empty (strip token) then make_tasks rest
      else strip token :: make_tasks rest
  end.

(** The input positions of the scheduled tasks, in task order. *)
Fixpoint task_positions (i : nat) (tokens : list str) : list nat :=
  match tokens with
  | [] => []
  | token :: rest =>
      if is_empty (strip token) then task_positions (S i) rest
      else i :: task_positions (S i) rest
  end.

(** Whether the coroutine gets as far as its POST, where it suspends
    until the response (or the failure) arrives. *)
Definition awaits_post (token : str) (w : TaskWorld) : bool :=
  match setup_fault w with
  | Some _ => false
  | None => negb (is_empty (strip token))
  end.

(** The event loop. Each task keeps its own outcome; the trace tags every
    event with its task's index, in the order the events happen. When
    [check_tokens] awaits the gather, the tasks take their first step in
    the order they were created: each enters the semaphore, which has more
    units than a batch has tasks, and runs up to its first suspension. A
    task that does not get to its POST ends there, leaving the semaphore;
    the others have issued their POST and wait. They then finish in some
    order, each leaving the semaphore as it does. *)
Record Loop := {
  outcomes : gmap nat (raising Result);
  trace : list (nat * Event)
}.

(** What the coroutine emits up to its first suspension. *)
Definition first_events (token : str) (w : TaskWorld) : list Event :=
  if awaits_post token w then [EAcquire; EPost (strip token)]
  else (check_token token w).1.

(** The first step of task [k]. *)
Definition start (tasks : list str) (world : nat → TaskWorld) (l : Loop) (k : nat)
  : Loop :=
  match tasks !! k with
  | Some token =>
      {| outcomes := if awaits_post token (world k) then outcomes l
                     else <[k := (check_token token (world k)).2]> (outcomes l);
         trace := trace l ++ ((λ ev, (k, ev)) <$> first_events token (world k)) |}
  | None => l
  end.

(** The last step of task [k], if it is waiting for its POST. *)
Definition finish (tasks : list str) (world : nat → TaskWorld) (l : Loop) (k : nat)
  : Loop :=
  match tasks !! k, outcomes l !! k with
  | Some token, None =>
      {| outcomes := <[k := (check_token token (world k)).2]> (outcomes l);
         trace := trace l ++ [(k, ERelease)] |}
  | _, _ => l
  end.

(** An event of the trace that was emitted by a task of the list. *)
Definition from_task (tasks : list str) (world : nat → TaskWorld)
    (kev : nat * Event) : Prop :=
  ∃ token, tasks !! kev.1 = Some token
           ∧ kev.2 ∈ (check_token token (world kev.1)).1.

(** The outcome of a task that ends at its first step. *)
Definition early (tasks : list str) (world : nat → TaskWorld) (k : nat)
  : option (raising Result) :=
  token ← tasks !! k;
  if awaits_post token (world k) then None
  else Some (check_token token (world k)).2.

(** The loop once every task has taken its first step. *)
Definition started (tasks : list str) (world : nat → TaskWorld) : Loop :=
  foldl (start tasks world) {| outcomes := ∅; trace := [] |}
        (seq 0 (length tasks)).

Definition run_loop (tasks : list str) (world : nat → TaskWorld) (order : list nat)
  : Loop :=
  foldl (finish tasks world) (started tasks world) order.

(** [asyncio.gather] with [return_exceptions=True]: once every task has
    finished, the outcomes in task order; [None] while some task has not
    (the [await] does not return). *)
Definition gather (tasks : list str) (l : Loop) : option (list (raising Result)) :=
  mapM (λ k, outcomes l !! k) (seq 0 (length tasks)).

(** Lines 164-174. *)
Definition process (result : raising Result) : Result :=
  match result with
  | inl _ => invalid_result MSG_FORMAT
  | inr r => r
  end.

Inductive Reply :=
| HTTPException (status_code : Z) (detail : str)
| Results (processed_results : list Result).

(* "请求过于频繁，请稍后再试" *)
Definition DETAIL_429 : str :=
  [35831; 27714; 36807; 20110; 39057; 32321; 65292;
   35831; 31245; 21518; 20877; 35797]%N.
(* f"每次请求最多验证 {MAX_TOKENS_PER_REQUEST} 个令牌" *)
Definition DETAIL_400 : str :=
  [27599; 27425; 35831; 27714; 26368; 22810; 39564; 35777; 32]%N
  ++ lit "5" ++ [32; 20010; 20196; 29260]%N.
(* "服务器内部错误" *)
Definition DETAIL_500 : str :=
  [26381; 21153; 22120; 20869; 37096; 38169; 35823]%N.

(** Everything outside the request that one call of the endpoint reads. *)
Record Env := {
  rnd : Q;                     (* random.random() *)
  t_sweep : Q;                 (* time.time() in cleanup_token_buckets *)
  t_create : Q;                (* time.time() in the bucket factory *)
  t_now : Q;                   (* time.time() in is_rate_limited *)
  world : nat → TaskWorld;     (* what the k-th task meets *)
  completion : list nat;       (* the order in which waiting tasks finish *)
  gather_fault : option Exn    (* an exception raised by the gather itself *)
}.

(** Lines 128-129: [random.random() < 0.01] triggers the sweep. *)
Definition sweep (env : Env) (tb : Buckets) : Buckets :=
  if negb (Qle_bool (1 # 100) (rnd env))
  then cleanup_token_buckets (t_sweep env) tb else tb.

(** Lines 127-145: the sweep, then the two admission checks. *)
Definition admission (env : Env) (client_ip : str) (tokens : list str) (tb : Buckets)
  : Buckets * option Reply :=
  let tb := sweep env tb in
  let '(limited, tb) := is_rate_limited client_ip (t_create env) (t_now env) tb in
  if limited then (tb, Some (HTTPException 429 DETAIL_429))
  else if (MAX_TOKENS_PER_REQUEST <? length tokens)%nat
       then (tb, Some (HTTPException 400 DETAIL_400))
       else (tb, None).

(** Lines 147-176: fan-out, gather, post-processing. [None] stands for a
    call that does not return. *)
Definition validate (env : Env) (tokens : list str)
  : list (nat * Event) * option Reply :=
  let tasks := make_tasks tokens in
  let l := run_loop tasks (world env) (completion env) in
  match gather_fault env with
  | Some _ => (trace l, Some (HTTPException 500 DETAIL_500))
  | None => (trace l, (λ results, Results (process <$> results)) <$> gather tasks l)
  end.

(** The entry of the reply for one task: its result, or the stand-in for
    a task that ended with an exception. *)
Definition entry (token : str) (w : TaskWorld) : Result :=
  process (check_token token w).2.

Definition check_tokens (env : Env) (client_ip : str) (tokens : list str)
    (tb : Buckets) : Buckets * list (nat * Event) * option Reply :=
  match admission env client_ip tokens tb with
  | (tb, Some rejection) => (tb, [], Some rejection)
  | (tb, None) => let '(tr, reply) := validate env tokens in (tb, tr, reply)
  end.

End Verification.

(** The authority's acceptance, in the words of its contract: HTTP 200
    with a JSON object that has the field [access_token]; the value of
    that field is the exchanged credential. *)
Definition credential_of (p : PostOutcome) : option json :=
  match p with
  | PostReturns {| status_code := 200; json_body := inr (JObj items) |} =>
      dict_get ACCESS_TOKEN items
  | _ => None
  end.

(** The call for [token] was issued and answered with credential [c]. *)
Definition answered_with (events : list Event) (p : PostOutcome) (c : json) : Prop :=
  (∃ t, EPost t ∈ events) ∧ credential_of p = Some c.

(** A token is blank when nothing is left of it after trimming. *)
Definition blank (token : str) : Prop := strip token = [].

(** The same call of the endpoint with the tasks finishing in another
    order. *)
Definition with_completion (env : Env) (order : list nat) : Env :=
  {| rnd := rnd env; t_sweep := t_sweep env; t_create := t_create env;
     t_now := t_now env; world := world env; completion := order;
     gather_fault := gather_fault env |}.

(** ** The concurrency gate (lines 148 and 50)

    Every call of [check_tokens] builds a semaphore of its own and hands
    it to the tasks of that call. A request being served is its
    semaphore's counter, the tasks still waiting for the semaphore, and
    those inside it, where the outbound call is made. *)
Record Batch := {
  sem_value : nat;
  waiting : nat;
  in_flight : nat
}.

(** Lines 148-156 for an admitted request. *)
Definition new_batch (tokens : list str) : Batch :=
  {| sem_value := MAX_CONCURRENT_CONNECTIONS;
     waiting := length (make_tasks tokens);
     in_flight := 0 |}.

(** [async with semaphore]: entering takes a unit when one is left. *)
Definition acquire (b : Batch) : option Batch :=
  match waiting b, sem_value b with
  | S w, S v => Some {| sem_value := v; waiting := w; in_flight := S (in_flight b) |}
  | _, _ => None
  end.

Definition release (b : Batch) : option Batch :=
  match in_flight b with
  | S n => Some {| sem_value := S (sem_value b); waiting := waiting b; in_flight := n |}
  | O => None
  end.

Inductive Action :=
| Arrive (tokens : list str)   (* a request passes admission *)
| Enter (request : nat)        (* one of its tasks enters the semaphore *)
| Leave (request : nat).       (* one of its tasks leaves it *)

Definition step (sys : list Batch) (a : Action) : option (list Batch) :=
  match a with
  | Arrive tokens =>
      if (MAX_TOKENS_PER_REQUEST <? length tokens)%nat then None
      else Some (sys ++ [new_batch tokens])
  | Enter i => b ← sys !! i; b' ← acquire b; Some (<[i := b']> sys)
  | Leave i => b ← sys !! i; b' ← release b; Some (<[i := b']> sys)
  end.

Fixpoint run (sys : list Batch) (actions : list Action) : option (list Batch) :=
  match actions with
  | [] => Some sys
  | a :: actions' => sys' ← step sys a; run sys' actions'
  end.

Definition total_in_flight (sys : list Batch) : nat :=
  sum_list (in_flight <$> sys).

(** A flood of [n] full requests whose tasks are all inside their
    semaphores. *)
Definition flood (n : nat) : list Action :=
  replicate n (Arrive (replicate MAX_TOKENS_PER_REQUEST (lit "t")))
  ++ flat_map (λ i, replicate MAX_TOKENS_PER_REQUEST (Enter i)) (seq 0 n).

(** The accounting of one request's semaphore: the units taken are the
    tasks inside, and a request has no more tasks than admission lets in. *)
Definition gate_ok (b : Batch) : Prop :=
  (sem_value b + in_flight b = MAX_CONCURRENT_CONNECTIONS
   ∧ waiting b + in_flight b ≤ MAX_TOKENS_PER_REQUEST)%nat.

(** ** Sample data for the worked instances *)

Definition sample_ip : str := lit "203.0.113.7".

Definition sample_describe (e : Exn) : str :=
  match e with
  | TimeoutException i | RequestError i | DecodeError i | SetupError i => i
  | TypeError _ => lit "unsupported operand"
  | KeyError k => k
  end.

(** An authority that accepts every token. *)
Definition accepting : TaskWorld :=
  {| setup_fault := None;
     post := PostReturns
       {| status_code := 200;
          json_body := inr (JObj [(ACCESS_TOKEN, JStr (lit "credential"))]) |} |}.

Definition sample_env (order : list nat) (fault : option Exn) : Env :=
  {| rnd := 1 # 2; t_sweep := 0; t_create := 0; t_now := 0;
     world := λ _, accepting; completion := order; gather_fault := fault |}.

(** A client that has used up a window opened at time 0. *)
Definition sample_clock : list (Q * Q) := replicate 999 (0%Q, 1%Q).
Definition opened : Buckets := (is_rate_limited sample_ip 0 0 ∅).2.
Definition exhausted : Buckets := (requests sample_ip sample_clock opened).2.

(** The floats 0.3, 60.3 and 120.3, and a client at its limit in a window
    opened at 0.3. *)
Definition float_0_3 : Q := 5404319552844595 # 18014398509481984.
Definition float_60_3 : Q := 4243235273913139 # 70368744177664.
Definition float_120_3 : Q := 8465359924572979 # 70368744177664.

(** Pairs of floats to subtract: 60.3 and 120.3 less 0.3, 0.1 less 0.2,
    two readings of today's clock, two ties between neighbouring floats,
    and subnormal numbers. *)
Definition float_samples : list (float * float) :=
  [ (0x1.e266666666666p+5, 0x1.3333333333333p-2);
    (0x1.e133333333333p+6, 0x1.3333333333333p-2);
    (0x1.999999999999ap-4, 0x1.999999999999ap-3);
    (0x1.954fc4f200000p+30, 0x1.954fc4007df3bp+30);
    (0x1p+0, -0x1p-53);
    (0x1.0000000000001p+0, -0x1p-53);
    (0x0.0000000000001p-1022, 0x0.012688b70e62bp-1022);
    (0x1p-1022, 0x0.0000000000003p-1022) ]%float.

Definition full_table : Buckets :=
  {[ sample_ip := {| count := 1000; reset_time := float_0_3 |} ]}.

Definition idle_table : Buckets :=
  {[ sample_ip := {| count := 3; reset_time := 0 |} ]}.

(** A batch with a blank token between two others, finishing in reverse
    order. *)
Definition sample_tokens : list str := [lit " a "; lit "  "; lit "b"].
Definition sample_run : Env := sample_env [1; 0]%nat None.

(** The entry of an accepted token. *)
Definition accepted (token : str) : Result :=
  valid_result (JStr (lit "credential")) token.

(** An authority that answers 403, and a run whose gather faults. *)
Definition refusing : TaskWorld :=
  {| setup_fault := None;
     post := PostReturns {| status_code := 403; json_body := inr JNull |} |}.

(** An authority that answers 200 with the empty JSON object, a POST that
    fails in transport, and a 200 whose body does not decode, the two
    exceptions with the same text. *)
Definition keyless : TaskWorld :=
  {| setup_fault := None;
     post := PostReturns {| status_code := 200; json_body := inr (JObj []) |} |}.

Definition unreachable : TaskWorld :=
  {| setup_fault := None; post := PostRaises (RequestError (lit "failed")) |}.

Definition garbled : TaskWorld :=
  {| setup_fault := None;
     post := PostReturns
       {| status_code := 200; json_body := inl (DecodeError (lit "failed")) |} |}.

(** A call of the endpoint in which every task meets [w]. *)
Definition sample_world (w : TaskWorld) : Env :=
  {| rnd := 1 # 2; t_sweep := 0; t_create := 0; t_now := 0;
     world := λ _, w; completion := [0]%nat; gather_fault := None |}.

Definition faulty_run : Env :=
  sample_env [0]%nat (Some (RequestError (lit "event loop is closed"))).

(** ** Further notions used by the properties beyond the claims *)

(** The same call of the endpoint with another draw of [random.random()]. *)
Definition with_rnd (env : Env) (r : Q) : Env :=
  {| rnd := r; t_sweep := t_sweep env; t_create := t_create env;
     t_now := t_now env; world := world env; completion := completion env;
     gather_fault := gather_fault env |}.

(** The decision of the limit test on a bucket, the window test included. *)
Definition over_limit (now : Q) (b : Bucket) : bool :=
  negb (window_elapsed now b) && (MAX_REQUESTS <=? count b).

(** The invariant that a stored bucket has counted a request. *)
Definition counted (tb : Buckets) : Prop :=
  ∀ ip b, tb !! ip = Some b → 1 <= count b.

(** A request opening a window at time 0, 999 more at time 59, and a
    thousand at time 60. *)
Definition late_clock : list (Q * Q) := replicate 999 (0%Q, 59%Q).
Definition next_window_clock : list (Q * Q) := replicate 999 (60%Q, 60%Q).

(** The events of task [k] in a trace, and the tokens a trace posts. *)
Definition task_events (k : nat) (tr : list (nat * Event)) : list Event :=
  (filter (λ kev : nat * Event, kev.1 = k) tr).*2.

Definition posted (tr : list (nat * Event)) : list str :=
  omap (λ kev : nat * Event,
          match kev.2 with EPost t => Some t | _ => None end) tr.

(** A character string made of white space only. *)
Definition all_space (s : str) : Prop := Forall (λ c, is_space c = true) s.

(** The number of requests that have arrived in a run of the gate. *)
Fixpoint arrivals (actions : list Action) : nat :=
  match actions with
  | [] => 0%nat
  | Arrive _ :: actions' => S (arrivals actions')
  | _ :: actions' => arrivals actions'
  end.

(** Requests served one after the other, each from some client and with
    its own readings of the outside; the run keeps, per request, the
    client and what [check_tokens] did. *)
Record Request := {
  client : str;
  outside : Env;
  batch : list str
}.

Fixpoint serve (describe : Exn → str) (reqs : list Request) (tb : Buckets)
  : list (str * list (nat * Event) * option Reply) * Buckets :=
  match reqs with
  | [] => ([], tb)
  | req :: reqs' =>
      let '(tb, tr, reply) :=
        check_tokens describe (outside req) (client req) (batch req) tb in
      let '(served, tb) := serve describe reqs' tb in
      ((client req, tr, reply) :: served, tb)
  end.

(** The number of POSTs the requests of client [ip] caused. *)
Definition client_posts (ip : str)
    (served : list (str * list (nat * Event) * option Reply)) : nat :=
  sum_list ((λ s : str * list (nat * Event) * option Reply,
               if decide (s.1.1 = ip) then length (posted s.1.2) else 0%nat)
            <$> served).

(** Requests made while the window opened at [w] lasts: none of their
    sweeps finds a bucket of that window stale, and the checks of those of
    client [ip] find the window not elapsed, both tests on the float
    difference the code computes. *)
Definition in_window (ip : str) (w : Q) (req : Request) : Prop :=
  (float_sub (t_sweep (outside req)) w < RATE_LIMIT_DURATION * 2)%Q
  ∧ (client req = ip →
     (float_sub (t_now (outside req)) w < RATE_LIMIT_DURATION)%Q).

(** What the tasks have emitted once all of them have started: a task
    that got to its POST has entered the semaphore and posted, and has left
    the semaphore exactly when it has its outcome; any other task has run
    through and has its outcome. *)
Definition settled (describe : Exn → str) (tasks : list str)
    (world : nat → TaskWorld) (l : Loop) : Prop :=
  ∀ k, match tasks !! k with
       | Some token =>
           if awaits_post token (world k)
           then task_events k (trace l)
                = [EAcquire; EPost (strip token)]
                  ++ match outcomes l !! k with
                     | Some _ => [ERelease]
                     | None => []
                     end
           else task_events k (trace l) = (check_token describe token (world k)).1
                ∧ is_Some (outcomes l !! k)
       | None => task_events k (trace l) = []
       end.

(** Two full requests with all their tasks inside their semaphores. *)
Definition two_full : list Batch :=
  replicate 2 {| sem_value := 4995; waiting := 0; in_flight := 5 |}.

(** Two requests of the sample client at time 0, the second too long. *)
Definition sample_requests : list Request :=
  [ {| client := sample_ip; outside := sample_env [0; 1]%nat None;
       batch := sample_tokens |};
    {| client := sample_ip; outside := sample_env [] None;
       batch := replicate 6 (lit "a") |} ].

(** * Properties *)

(** ** Float subtraction *)

Section Rounding.

Local Open Scope Q_scope.

Lemma pow2_pos e : 0 < 2 ^ e.
Proof. apply Qpower_0_lt. reflexivity. Qed.

Lemma pow2_le e e' : (e <= e')%Z -> 2 ^ e <= 2 ^ e'.
Proof. intros H. apply Qpower_le_compat_l; [exact H | discriminate]. Qed.

Lemma pow2_add e k : 2 ^ (e + k) == 2 ^ e * 2 ^ k.
Proof. apply Qpower_plus. discriminate. Qed.

Lemma pow2_Z n : (0 <= n)%Z -> inject_Z (2 ^ n) == 2 ^ n.
Proof. intros H. apply (Zpower_Qpower 2 n H). Qed.

Lemma bracket_hi (N D A B : Q) :
  0 < B -> 0 < A -> N < 2 * A -> B <= D -> N * B < 2 * A * D.
Proof. intros. nra. Qed.

Lemma bracket_lo (N D A B : Q) :
  0 < B -> 0 < A -> A <= N -> D < 2 * B -> A * D <= N * (2 * B).
Proof. intros. nra. Qed.

Lemma ilog2_spec q : 0 < q -> 2 ^ ilog2 q <= q /\ q < 2 ^ (ilog2 q + 1).
Proof.
  intros Hq. destruct q as [n d].
  assert (Hn : (0 < n)%Z) by (unfold Qlt in Hq; simpl in Hq; lia).
  unfold ilog2. cbn [Qnum Qden].
  pose proof (Z.log2_spec n Hn) as [Ha1 Ha2].
  pose proof (Z.log2_spec (Zpos d) eq_refl) as [Hb1 Hb2].
  pose proof (Z.log2_nonneg n) as Ha0.
  pose proof (Z.log2_nonneg (Zpos d)) as Hb0.
  set (a := Z.log2 n) in *. set (b := Z.log2 (Zpos d)) in *.
  rewrite Z.pow_succ_r in Ha2, Hb2 by assumption.
  rewrite Zle_Qle in Ha1, Hb1. rewrite Zlt_Qlt in Ha2, Hb2.
  rewrite inject_Z_mult in Ha2, Hb2.
  rewrite pow2_Z in Ha1, Ha2, Hb1, Hb2 by assumption.
  pose proof (pow2_pos a) as HA. pose proof (pow2_pos b) as HB.
  assert (Hk : 2 ^ (a - b) == 2 ^ a / 2 ^ b) by (apply Qpower_minus; discriminate).
  assert (Hq' : n # d == inject_Z n / inject_Z (Zpos d)) by apply Qmake_Qdiv.
  assert (HD : 0 < inject_Z (Zpos d)) by reflexivity.
  set (N := inject_Z n) in *. set (D := inject_Z (Zpos d)) in *.
  set (A := 2 ^ a) in *. set (B := 2 ^ b) in *.
  destruct (Qle_bool (2 ^ (a - b)) (n # d)) eqn:Hc.
  - apply Qle_bool_iff in Hc. split; [exact Hc|].
    rewrite pow2_add, Hk, Hq'.
    apply Qlt_shift_div_r; [exact HD|].
    change (2 ^ 1) with 2.
    setoid_replace (A / B * 2 * D) with ((2 * A * D) / B) using relation Qeq
      by (field; apply Qnot_eq_sym, Qlt_not_eq, HB).
    apply Qlt_shift_div_l; [exact HB|]. apply bracket_hi; assumption.
  - assert (Hlt : n # d < 2 ^ (a - b)).
    { apply Qnot_le_lt. intros H. apply Qle_bool_iff in H. congruence. }
    replace (a - b - 1 + 1)%Z with (a - b)%Z by lia.
    split; [|exact Hlt].
    assert (Hk' : 2 ^ (a - b - 1) == A / (2 * B)).
    { replace (a - b - 1)%Z with ((a - b) + (-1))%Z by lia. rewrite pow2_add, Hk.
      change (2 ^ (-1)) with (/ 2).
      field. apply Qnot_eq_sym, Qlt_not_eq, HB. }
    rewrite Hk', Hq'.
    apply Qle_shift_div_l; [exact HD|].
    setoid_replace (A / (2 * B) * D) with ((A * D) / (2 * B)) using relation Qeq
      by (field; apply Qnot_eq_sym, Qlt_not_eq, HB).
    apply Qle_shift_div_r; [lra|]. apply bracket_lo; assumption.
Qed.

Lemma ilog2_mono q q' : 0 < q -> q <= q' -> (ilog2 q <= ilog2 q')%Z.
Proof.
  intros Hq Hle.
  destruct (ilog2_spec q Hq) as [H1 _].
  destruct (ilog2_spec q') as [_ H2]; [lra|].
  destruct (Z_le_gt_dec (ilog2 q) (ilog2 q')) as [H|H]; [exact H|].
  exfalso. pose proof (pow2_le (ilog2 q' + 1) (ilog2 q) ltac:(lia)). lra.
Qed.

Lemma rne_floor m : (Qfloor m <= rne m <= Qfloor m + 1)%Z.
Proof.
  unfold rne. destruct (Qcompare _ _); [destruct (Z.even _)| |]; lia.
Qed.

Lemma rne_Z z : rne (inject_Z z) = z.
Proof.
  unfold rne. rewrite Qfloor_Z.
  destruct (Qcompare_spec (inject_Z z - inject_Z z) (1 # 2)) as [H|H|H];
    [exfalso; lra | reflexivity | exfalso; lra].
Qed.

Lemma rne_mono m m' : m <= m' -> (rne m <= rne m')%Z.
Proof.
  intros Hle. pose proof (Qfloor_resp_le _ _ Hle) as Hf.
  pose proof (rne_floor m) as H1. pose proof (rne_floor m') as H2.
  destruct (Z.eq_dec (Qfloor m) (Qfloor m')) as [E|NE]; [|lia].
  unfold rne in *. rewrite <- E in *.
  destruct (Qcompare_spec (m - inject_Z (Qfloor m)) (1 # 2)) as [Ha|Ha|Ha];
  destruct (Qcompare_spec (m' - inject_Z (Qfloor m)) (1 # 2)) as [Hb|Hb|Hb];
    try destruct (Z.even _); try lia; exfalso; lra.
Qed.

Lemma rne_le m z : m <= inject_Z z -> (rne m <= z)%Z.
Proof. intros H. rewrite <- (rne_Z z). apply rne_mono, H. Qed.

Lemma rne_ge m z : inject_Z z <= m -> (z <= rne m)%Z.
Proof. intros H. rewrite <- (rne_Z z). apply rne_mono, H. Qed.

Lemma ulp_pos q : 0 < ulp q.
Proof. apply pow2_pos. Qed.

Lemma round_pos_nonneg q : 0 < q -> 0 <= round_pos q.
Proof.
  intros Hq. unfold round_pos. pose proof (ulp_pos q) as Hu.
  assert (0 <= rne (q / ulp q))%Z.
  { apply rne_ge. apply Qle_shift_div_l; [exact Hu|]. change (inject_Z 0) with 0. lra. }
  rewrite Zle_Qle in H. change (inject_Z 0) with 0 in H. nra.
Qed.

Lemma round_pos_mono q q' : 0 < q -> q <= q' -> round_pos q <= round_pos q'.
Proof.
  intros Hq Hle. assert (Hq' : 0 < q') by lra.
  pose proof (ilog2_mono q q' Hq Hle) as He.
  unfold round_pos, ulp.
  set (E := Z.max (ilog2 q) (-1022)). set (E' := Z.max (ilog2 q') (-1022)).
  pose proof (pow2_pos (E - 52)) as Hu. pose proof (pow2_pos (E' - 52)) as Hu'.
  destruct (Z.eq_dec E E') as [Heq|Hne].
  - rewrite <- Heq.
    assert (rne (q / 2 ^ (E - 52)) <= rne (q' / 2 ^ (E - 52)))%Z.
    { apply rne_mono. apply Qle_shift_div_l; [exact Hu|].
      setoid_replace (q / 2 ^ (E - 52) * 2 ^ (E - 52)) with q using relation Qeq
        by (field; apply Qnot_eq_sym, Qlt_not_eq, Hu).
      exact Hle. }
    rewrite Zle_Qle in H. nra.
  - assert (HE : (E + 1 <= E')%Z) by lia.
    assert (HE' : E' = ilog2 q') by lia.
    destruct (ilog2_spec q Hq) as [_ Hup]. destruct (ilog2_spec q' Hq') as [Hlo _].
    apply Qle_trans with (2 ^ (E + 1)).
    + assert (Hp : 2 ^ (E + 1) == inject_Z (2 ^ 53) * 2 ^ (E - 52)).
      { replace (E + 1)%Z with (53 + (E - 52))%Z by lia. rewrite pow2_add.
        rewrite <- pow2_Z by lia. reflexivity. }
      rewrite Hp.
      assert (rne (q / 2 ^ (E - 52)) <= 2 ^ 53)%Z.
      { apply rne_le. apply Qle_shift_div_r; [exact Hu|]. rewrite <- Hp.
        apply Qle_trans with (2 ^ (ilog2 q + 1)); [lra|]. apply pow2_le. lia. }
      rewrite Zle_Qle in H. nra.
    + apply Qle_trans with (2 ^ E'); [apply pow2_le; lia|].
      assert (Hp : 2 ^ E' == inject_Z (2 ^ 52) * 2 ^ (E' - 52)).
      { replace E' with (52 + (E' - 52))%Z at 1 by lia. rewrite pow2_add.
        rewrite <- pow2_Z by lia. reflexivity. }
      rewrite Hp.
      assert (2 ^ 52 <= rne (q' / 2 ^ (E' - 52)))%Z.
      { apply rne_ge. apply Qle_shift_div_l; [exact Hu'|]. rewrite <- Hp.
        rewrite HE'. exact Hlo. }
      rewrite Zle_Qle in H. nra.
Qed.

Lemma round64_pos q : 0 < q -> round64 q = round_pos q.
Proof.
  destruct q as [[|n|n] d]; intros H; try reflexivity; discriminate H.
Qed.

Lemma round64_neg q : q < 0 -> round64 q = - round_pos (- q).
Proof.
  destruct q as [[|n|n] d]; intros H; try reflexivity; discriminate H.
Qed.

Lemma round64_zero q : q == 0 -> round64 q = 0.
Proof.
  destruct q as [[|n|n] d]; intros H; try reflexivity; discriminate H.
Qed.

Lemma round64_sign q :
  (0 < q -> 0 <= round64 q) /\ (q < 0 -> round64 q <= 0) /\ (q == 0 -> round64 q == 0).
Proof.
  split; [|split]; intros H.
  - rewrite round64_pos by exact H. apply round_pos_nonneg, H.
  - rewrite round64_neg by exact H.
    pose proof (round_pos_nonneg (- q) ltac:(lra)). lra.
  - rewrite round64_zero by exact H. reflexivity.
Qed.

(** Rounding is monotone, so a later reading gives no smaller a
    difference. *)
Lemma round64_mono q q' : q <= q' -> round64 q <= round64 q'.
Proof.
  intros Hle.
  destruct (round64_sign q) as (Hp & Hn & Hz).
  destruct (round64_sign q') as (Hp' & Hn' & Hz').
  destruct (Q_dec q 0) as [[Hq|Hq]|Hq]; destruct (Q_dec q' 0) as [[Hq'|Hq']|Hq'];
    try (exfalso; lra);
    try (specialize (Hn Hq)); try (specialize (Hp Hq)); try (specialize (Hz Hq));
    try (specialize (Hn' Hq')); try (specialize (Hp' Hq')); try (specialize (Hz' Hq'));
    try lra.
  - rewrite !round64_neg by assumption.
    pose proof (round_pos_mono (- q') (- q) ltac:(lra) ltac:(lra)). lra.
  - rewrite !round64_pos by assumption. apply round_pos_mono; assumption.
Qed.

Lemma float_sub_mono a a' b : a <= a' -> float_sub a b <= float_sub a' b.
Proof. intros H. apply round64_mono. lra. Qed.

(** The thresholds of the window and staleness tests are floats. *)
Lemma round64_thresholds :
  round64 RATE_LIMIT_DURATION == RATE_LIMIT_DURATION
  /\ round64 (RATE_LIMIT_DURATION * 2) == RATE_LIMIT_DURATION * 2.
Proof. split; vm_compute; reflexivity. Qed.

(** A difference of at least 60 (or 120) seconds is not rounded below it. *)
Lemma float_sub_window a b :
  RATE_LIMIT_DURATION <= a - b -> RATE_LIMIT_DURATION <= float_sub a b.
Proof.
  intros H. apply round64_mono in H.
  destruct round64_thresholds as [E _]. unfold float_sub. lra.
Qed.

Lemma float_sub_stale a b :
  RATE_LIMIT_DURATION * 2 <= a - b -> RATE_LIMIT_DURATION * 2 <= float_sub a b.
Proof.
  intros H. apply round64_mono in H.
  destruct round64_thresholds as [_ E]. unfold float_sub. lra.
Qed.

(** On sample readings the rounded difference is the one the binary64
    subtraction of the primitive floats gives, and the sample floats 0.3
    and 60.3 are the ones used below. *)
Lemma float_sub_agrees_with_binary64 :
  Forall (λ xy : float * float,
            Q_of_float (xy.1 - xy.2)%float
            == float_sub (Q_of_float xy.1) (Q_of_float xy.2)) float_samples
  /\ Q_of_float 0x1.3333333333333p-2%float == float_0_3
  /\ Q_of_float 0x1.e266666666666p+5%float == float_60_3
  /\ Q_of_float 0x1.e133333333333p+6%float == float_120_3.
Proof.
  split.
  - repeat (apply List.Forall_cons; [vm_compute; reflexivity|]).
    apply List.Forall_nil.
  - repeat split; vm_compute; reflexivity.
Qed.

End Rounding.

(** ** The admission check *)

Lemma window_elapsed_true now b :
  window_elapsed now b = true
  ↔ (RATE_LIMIT_DURATION <= float_sub now (reset_time b))%Q.
Proof. apply Qle_bool_iff. Qed.

Lemma window_elapsed_false now b :
  window_elapsed now b = false
  ↔ (float_sub now (reset_time b) < RATE_LIMIT_DURATION)%Q.
Proof.
  rewrite <- not_true_iff_false, window_elapsed_true. split.
  - apply Qnot_le_lt.
  - apply Qlt_not_le.
Qed.

Lemma stale_true now b :
  stale now b = true
  ↔ (RATE_LIMIT_DURATION * 2 <= float_sub now (reset_time b))%Q.
Proof. apply Qle_bool_iff. Qed.

Lemma stale_false now b :
  stale now b = false
  ↔ (float_sub now (reset_time b) < RATE_LIMIT_DURATION * 2)%Q.
Proof.
  rewrite <- not_true_iff_false, stale_true. split.
  - apply Qnot_le_lt.
  - apply Qlt_not_le.
Qed.

Lemma getitem_bucket ip t0 tb : (getitem ip t0 tb).1 = bucket_of ip t0 tb.
Proof. unfold getitem, bucket_of. by destruct (tb !! ip). Qed.

Lemma getitem_table ip t0 tb :
  (getitem ip t0 tb).2 = <[ip := bucket_of ip t0 tb]> tb.
Proof.
  unfold getitem, bucket_of. destruct (tb !! ip) as [b|] eqn:E; simpl; [|done].
  by rewrite insert_id.
Qed.

Lemma is_rate_limited_reset ip t0 now tb :
  window_elapsed now (bucket_of ip t0 tb) = true →
  is_rate_limited ip t0 now tb
  = (false, <[ip := {| count := 1; reset_time := now |}]> tb).
Proof.
  intros He. unfold is_rate_limited.
  destruct (getitem ip t0 tb) as [b tb'] eqn:Eg.
  pose proof (getitem_bucket ip t0 tb) as Hb.
  pose proof (getitem_table ip t0 tb) as Ht.
  rewrite Eg in Hb, Ht. simpl in Hb, Ht. subst b tb'.
  rewrite He. simpl. by rewrite !insert_insert_eq.
Qed.

Lemma is_rate_limited_reject ip t0 now tb :
  window_elapsed now (bucket_of ip t0 tb) = false →
  MAX_REQUESTS <= count (bucket_of ip t0 tb) →
  is_rate_limited ip t0 now tb = (true, <[ip := bucket_of ip t0 tb]> tb).
Proof.
  intros He Hc. unfold is_rate_limited.
  destruct (getitem ip t0 tb) as [b tb'] eqn:Eg.
  pose proof (getitem_bucket ip t0 tb) as Hb.
  pose proof (getitem_table ip t0 tb) as Ht.
  rewrite Eg in Hb, Ht. simpl in Hb, Ht. subst b tb'.
  rewrite He. apply Z.leb_le in Hc. rewrite Hc.
  by rewrite insert_insert_eq.
Qed.

Lemma is_rate_limited_admit ip t0 now tb :
  window_elapsed now (bucket_of ip t0 tb) = false →
  count (bucket_of ip t0 tb) < MAX_REQUESTS →
  is_rate_limited ip t0 now tb
  = (false, <[ip := {| count := count (bucket_of ip t0 tb) + 1;
                       reset_time := reset_time (bucket_of ip t0 tb) |}]> tb).
Proof.
  intros He Hc. unfold is_rate_limited.
  destruct (getitem ip t0 tb) as [b tb'] eqn:Eg.
  pose proof (getitem_bucket ip t0 tb) as Hb.
  pose proof (getitem_table ip t0 tb) as Ht.
  rewrite Eg in Hb, Ht. simpl in Hb, Ht. subst b tb'.
  rewrite He. apply Z.leb_gt in Hc. rewrite Hc.
  by rewrite !insert_insert_eq.
Qed.

Lemma is_rate_limited_frame ip ip' t0 now tb :
  ip' ≠ ip → (is_rate_limited ip t0 now tb).2 !! ip' = tb !! ip'.
Proof.
  intros Hne.
  destruct (window_elapsed now (bucket_of ip t0 tb)) eqn:He.
  - rewrite is_rate_limited_reset by done. simpl. by rewrite lookup_insert_ne.
  - destruct (Z_lt_le_dec (count (bucket_of ip t0 tb)) MAX_REQUESTS) as [Hc|Hc].
    + rewrite is_rate_limited_admit by done. simpl. by rewrite lookup_insert_ne.
    + rewrite is_rate_limited_reject by done. simpl. by rewrite lookup_insert_ne.
Qed.

(** A rejected check changes nothing: the bucket was there, its window is
    still open and its count is at the limit. *)
Lemma is_rate_limited_true ip t0 now tb tb' :
  is_rate_limited ip t0 now tb = (true, tb') →
  tb' = tb ∧ ∃ b, tb !! ip = Some b ∧ MAX_REQUESTS <= count b
                  ∧ window_elapsed now b = false.
Proof.
  intros H.
  destruct (window_elapsed now (bucket_of ip t0 tb)) eqn:He.
  { rewrite is_rate_limited_reset in H by done. discriminate. }
  destruct (Z_lt_le_dec (count (bucket_of ip t0 tb)) MAX_REQUESTS) as [Hc|Hc].
  { rewrite is_rate_limited_admit in H by done. discriminate. }
  rewrite is_rate_limited_reject in H by done. injection H as <-.
  unfold bucket_of in *. destruct (tb !! ip) as [b|] eqn:Eb; simpl in *.
  - split; [by apply insert_id | eauto].
  - unfold MAX_REQUESTS in Hc. lia.
Qed.

Lemma is_rate_limited_true_iff ip t0 now tb :
  (is_rate_limited ip t0 now tb).1 = true
  ↔ ∃ b, tb !! ip = Some b ∧ MAX_REQUESTS <= count b
         ∧ window_elapsed now b = false.
Proof.
  split.
  - destruct (is_rate_limited ip t0 now tb) as [r tb'] eqn:E. cbn.
    intros ->. by apply is_rate_limited_true in E as [_ ?].
  - intros (b & Hb & Hc & He).
    assert (Hbo : bucket_of ip t0 tb = b) by (unfold bucket_of; by rewrite Hb).
    rewrite is_rate_limited_reject; by rewrite ?Hbo.
Qed.

(** An admitted check stores the count it found after the window test,
    plus one, and that count was below the limit. *)
Lemma is_rate_limited_false ip t0 now tb tb' :
  is_rate_limited ip t0 now tb = (false, tb') →
  ∃ c w, c < MAX_REQUESTS
         ∧ tb' = <[ip := {| count := c + 1; reset_time := w |}]> tb
         ∧ ((window_elapsed now (bucket_of ip t0 tb) = true ∧ c = 0 ∧ w = now)
            ∨ (window_elapsed now (bucket_of ip t0 tb) = false
               ∧ c = count (bucket_of ip t0 tb)
               ∧ w = reset_time (bucket_of ip t0 tb))).
Proof.
  intros H.
  destruct (window_elapsed now (bucket_of ip t0 tb)) eqn:He.
  { rewrite is_rate_limited_reset in H by done. injection H as <-.
    exists 0, now. split; [done|]. split; [done|]. by left. }
  destruct (Z_lt_le_dec (count (bucket_of ip t0 tb)) MAX_REQUESTS) as [Hc|Hc].
  - rewrite is_rate_limited_admit in H by done. injection H as <-.
    eexists _, _. split; [exact Hc|]. split; [done|]. by right.
  - rewrite is_rate_limited_reject in H by done. discriminate.
Qed.

(** ** Runs of admission checks inside one window *)

Lemma requests_in_window ip w clock : ∀ c (tb : Buckets),
  tb !! ip = Some {| count := c; reset_time := w |} →
  c + Z.of_nat (length clock) <= MAX_REQUESTS →
  Forall (λ t : Q * Q, (float_sub t.2 w < RATE_LIMIT_DURATION)%Q) clock →
  requests ip clock tb
  = (replicate (length clock) false,
     <[ip := {| count := c + Z.of_nat (length clock); reset_time := w |}]> tb).
Proof.
  induction clock as [|[t0 t] clock IH]; intros c tb Hb Hc Hw.
  - simpl. rewrite Z.add_0_r. by rewrite insert_id.
  - apply Forall_cons in Hw as [Ht Hw]. simpl in Ht.
    rewrite length_cons, Nat2Z.inj_succ in Hc |- *.
    assert (Hbo : bucket_of ip t0 tb = {| count := c; reset_time := w |})
      by (unfold bucket_of; by rewrite Hb).
    assert (He : window_elapsed t (bucket_of ip t0 tb) = false)
      by (rewrite Hbo; by apply window_elapsed_false).
    assert (Hlt : count (bucket_of ip t0 tb) < MAX_REQUESTS)
      by (rewrite Hbo; simpl; lia).
    cbn [requests replicate].
    rewrite (is_rate_limited_admit _ _ _ _ He Hlt), Hbo. cbn [count reset_time].
    rewrite (IH (c + 1)); [| by rewrite lookup_insert_eq | lia | done].
    rewrite insert_insert_eq. do 3 f_equal. lia.
Qed.

(** ** The sweep *)

Lemma lookup_foldl_delete (ks : list str) : ∀ (tb : Buckets) ip,
  foldl (λ tb ip, delete ip tb) tb ks !! ip
  = if decide (ip ∈ ks) then None else tb !! ip.
Proof.
  induction ks as [|k ks IH]; intros tb ip; cbn [foldl].
  - case_decide as Hin; [by apply elem_of_nil in Hin | done].
  - rewrite IH. destruct (decide (ip ∈ ks)) as [Hin|Hin].
    + rewrite decide_True; [done | by right].
    + destruct (decide (ip = k)) as [->|Hne].
      * rewrite lookup_delete_eq. rewrite decide_True; [done | by left].
      * rewrite lookup_delete_ne by done.
        rewrite decide_False; [done|].
        by intros [?|?]%elem_of_cons.
Qed.

Lemma elem_of_expired_ips (now : Q) (tb : Buckets) (ip : str) :
  ip ∈ expired_ips now tb ↔ ∃ b, tb !! ip = Some b ∧ stale now b = true.
Proof.
  unfold expired_ips. rewrite list_elem_of_fmap. split.
  - intros [[k b] [-> [Hs Hin]%list_elem_of_filter]].
    apply elem_of_map_to_list in Hin. simpl in *.
    exists b. split; [done|]. by apply Is_true_true.
  - intros (b & Hb & Hs). exists (ip, b). split; [done|].
    apply list_elem_of_filter. split.
    + simpl. by apply Is_true_true.
    + by apply elem_of_map_to_list.
Qed.

Lemma lookup_cleanup (now : Q) (tb : Buckets) (ip : str) :
  cleanup_token_buckets now tb !! ip
  = b ← tb !! ip; if stale now b then None else Some b.
Proof.
  unfold cleanup_token_buckets. rewrite lookup_foldl_delete.
  destruct (decide (ip ∈ expired_ips now tb)) as [Hin|Hin].
  - apply elem_of_expired_ips in Hin as (b & -> & Hs). simpl. by rewrite Hs.
  - destruct (tb !! ip) as [b|] eqn:Eb; simpl; [|done].
    destruct (stale now b) eqn:Hs; [|done].
    exfalso. apply Hin, elem_of_expired_ips. eauto.
Qed.

(** ** The count never passes the limit *)

Lemma bounded_check ip t0 now tb :
  bounded tb → bounded (is_rate_limited ip t0 now tb).2.
Proof.
  intros Hb ip' b'.
  destruct (decide (ip' = ip)) as [->|Hne].
  2:{ rewrite is_rate_limited_frame by done. apply Hb. }
  destruct (is_rate_limited ip t0 now tb) as [[] tb'] eqn:E; simpl.
  - apply is_rate_limited_true in E as [-> _]. apply Hb.
  - apply is_rate_limited_false in E as (c & w & Hc & -> & Hcase).
    rewrite lookup_insert_eq. intros [= <-]. simpl.
    destruct Hcase as [(_ & -> & _)|(_ & -> & _)].
    + unfold MAX_REQUESTS. lia.
    + unfold bucket_of in *. destruct (tb !! ip) as [b|] eqn:Eb; simpl in *.
      * specialize (Hb _ _ Eb). lia.
      * lia.
Qed.

Lemma bounded_sweep (now : Q) (tb : Buckets) : bounded tb → bounded (cleanup_token_buckets now tb).
Proof.
  intros Hb ip b. rewrite lookup_cleanup.
  destruct (tb !! ip) as [b0|] eqn:Eb; simpl; [|done].
  destruct (stale now b0); [done|]. intros [= <-]. by apply (Hb ip).
Qed.

Lemma reachable_bounded tb : reachable tb → bounded tb.
Proof.
  induction 1 as [|ip t0 now tb _ IH|now tb _ IH].
  - intros ip b. by rewrite lookup_empty.
  - by apply bounded_check.
  - by apply bounded_sweep.
Qed.

(** A run of admission checks leads from a reachable table to a reachable
    one. *)
Lemma requests_reachable ip clock : ∀ tb : Buckets,
  reachable tb → reachable (requests ip clock tb).2.
Proof.
  induction clock as [|[t0 t] clock IH]; intros tb Htb; [done|].
  cbn [requests].
  pose proof (reach_check ip t0 t tb Htb) as Hstep.
  destruct (is_rate_limited ip t0 t tb) as [r tb1].
  specialize (IH tb1 Hstep).
  by destruct (requests ip clock tb1).
Qed.

(** ** Claims on the admission controller *)

(** C4. The admission check is a fixed-window counter. With [b] the
    client's bucket (a fresh one for an unseen identity) and the elapsed
    time read as line 38 computes it, the float difference
    [now - reset_time b]: when the elapsed time is at least the window
    duration, the count restarts from 0 at a window starting now (and the
    request, being below the limit, is admitted and counted); otherwise a
    count at the limit rejects the request and leaves the table as it is,
    and a count below the limit is incremented and the request admitted;
    the buckets of other identities are not touched. Consequently, when a
    request opens a window at [w] and [MAX_REQUESTS - 1] further requests
    follow inside that window, all [MAX_REQUESTS] are admitted, every next
    request inside the window is rejected, and a request after the window
    has elapsed is admitted. An exact difference of at least the window
    duration is never rounded below it. *)
Theorem fixed_window_counter (ip : str) (t0 now : Q) (tb : Buckets)
    (clock : list (Q * Q)) (w : Q) :
  let b := bucket_of ip t0 tb in
  let elapsed := float_sub now (reset_time b) in
  let first := is_rate_limited ip t0 now tb in
  ((RATE_LIMIT_DURATION <= elapsed)%Q →
     first = (false, <[ip := {| count := 0 + 1; reset_time := now |}]> tb))
  ∧ ((elapsed < RATE_LIMIT_DURATION)%Q → MAX_REQUESTS <= count b →
       first = (true, tb) ∧ tb !! ip = Some b)
  ∧ ((elapsed < RATE_LIMIT_DURATION)%Q → count b < MAX_REQUESTS →
       first = (false, <[ip := {| count := count b + 1;
                                  reset_time := reset_time b |}]> tb))
  ∧ (∀ ip', ip' ≠ ip → first.2 !! ip' = tb !! ip')
  ∧ (first.2 !! ip = Some {| count := 1; reset_time := w |} →
     Z.of_nat (length clock) = MAX_REQUESTS - 1 →
     Forall (λ t : Q * Q, (float_sub t.2 w < RATE_LIMIT_DURATION)%Q) clock →
     first.1 = false
     ∧ (requests ip clock first.2).1 = replicate (length clock) false
     ∧ ∀ t0' t' : Q,
         let tb' := (requests ip clock first.2).2 in
         ((float_sub t' w < RATE_LIMIT_DURATION)%Q →
            is_rate_limited ip t0' t' tb' = (true, tb'))
         ∧ ((RATE_LIMIT_DURATION <= float_sub t' w)%Q →
            is_rate_limited ip t0' t' tb'
            = (false, <[ip := {| count := 1; reset_time := t' |}]> tb')))
  ∧ ((RATE_LIMIT_DURATION <= now - reset_time b)%Q →
     (RATE_LIMIT_DURATION <= elapsed)%Q).
Proof.
  intros b elapsed first. split; [|split; [|split; [|split; [|split]]]].
  - intros He%window_elapsed_true. by apply is_rate_limited_reset.
  - intros He%window_elapsed_false Hc.
    pose proof (is_rate_limited_reject ip t0 now tb He Hc) as Hrej.
    destruct (is_rate_limited_true _ _ _ _ _ Hrej) as (Heq & b' & Hb' & _).
    split.
    + subst first. rewrite Hrej. by rewrite Heq.
    + rewrite Hb'. f_equal. subst b. unfold bucket_of. by rewrite Hb'.
  - intros He%window_elapsed_false Hc. by apply is_rate_limited_admit.
  - intros ip' Hne. by apply is_rate_limited_frame.
  - intros Hopen Hlen Hwin.
    assert (Hrun := requests_in_window ip w clock 1 first.2 Hopen).
    rewrite Hrun by (done || lia). cbn [fst snd].
    split; [|split; [done|]].
    { destruct first as [[] tb1] eqn:E; [|done]. cbn [fst snd] in *.
      apply is_rate_limited_true in E as (-> & b' & Hb' & Hc' & _).
      rewrite Hb' in Hopen. injection Hopen as ->. simpl in Hc'.
      unfold MAX_REQUESTS in Hc'. lia. }
    intros t0' t'.
    set (bmax := {| count := 1 + Z.of_nat (length clock); reset_time := w |}).
    set (tb' := <[ip := bmax]> first.2).
    assert (Hbo : bucket_of ip t0' tb' = bmax)
      by (unfold bucket_of, tb'; by rewrite lookup_insert_eq).
    split; intros Ht.
    + rewrite is_rate_limited_reject; rewrite Hbo.
      * unfold tb'. by rewrite insert_insert_eq.
      * by apply window_elapsed_false.
      * simpl. lia.
    + rewrite is_rate_limited_reset; [done|]. rewrite Hbo.
      by apply window_elapsed_true.
  - apply float_sub_window.
Qed.

(** C8. The sweep removes from the table exactly the buckets whose window
    start lies at least twice the window duration back, the time gone by
    being read as line 120 computes it, the float difference
    [now - reset_time b]; every other bucket stays in the table with its
    count and window start. An exact difference of at least twice the
    window duration is never rounded below it. *)
Theorem cleanup_removes_exactly_stale (now : Q) (tb : Buckets) (ip : str) :
  (∀ b, tb !! ip = Some b →
        (RATE_LIMIT_DURATION * 2 <= float_sub now (reset_time b))%Q →
        cleanup_token_buckets now tb !! ip = None)
  ∧ (∀ b, tb !! ip = Some b →
          (float_sub now (reset_time b) < RATE_LIMIT_DURATION * 2)%Q →
          cleanup_token_buckets now tb !! ip = Some b)
  ∧ (tb !! ip = None → cleanup_token_buckets now tb !! ip = None)
  ∧ (∀ b, (RATE_LIMIT_DURATION * 2 <= now - reset_time b)%Q →
          (RATE_LIMIT_DURATION * 2 <= float_sub now (reset_time b))%Q).
Proof.
  rewrite lookup_cleanup. split; [|split; [|split]].
  - intros b -> Hs%stale_true. simpl. by rewrite Hs.
  - intros b -> Hs%stale_false. simpl. by rewrite Hs.
  - by intros ->.
  - intros b. apply float_sub_stale.
Qed.

(** C10 (as the code has it). In every table the process can reach,
    every bucket's count is at most [MAX_REQUESTS] (and at least 0). An
    admission check that rejects leaves the table as it is. One that finds
    the count at the limit rejects, and so leaves the count unchanged, when
    the window has not elapsed; when the window has elapsed (by the float
    difference of line 38) it restarts the count and admits the request,
    which leaves the count at 1. A check that admits found, after the
    window test, a count strictly below the limit and stores that count
    plus one. *)
Theorem count_never_exceeds_limit (tb : Buckets) (Hreach : reachable tb)
    (ip : str) (t0 now : Q) :
  (∀ ip' b, tb !! ip' = Some b → 0 <= count b <= MAX_REQUESTS)
  ∧ (∀ tb', is_rate_limited ip t0 now tb = (true, tb') → tb' = tb)
  ∧ (∀ b, tb !! ip = Some b → MAX_REQUESTS <= count b →
       ((float_sub now (reset_time b) < RATE_LIMIT_DURATION)%Q →
          is_rate_limited ip t0 now tb = (true, tb))
       ∧ ((RATE_LIMIT_DURATION <= float_sub now (reset_time b))%Q →
            is_rate_limited ip t0 now tb
            = (false, <[ip := {| count := 1; reset_time := now |}]> tb)))
  ∧ (∀ tb', is_rate_limited ip t0 now tb = (false, tb') →
       ∃ c w, c < MAX_REQUESTS
              ∧ tb' !! ip = Some {| count := c + 1; reset_time := w |}
              ∧ (c = 0 ∨ ∃ b, tb !! ip = Some b ∧ c = count b)).
Proof.
  split; [|split; [|split]].
  - intros ip' b Hb. by apply (reachable_bounded tb Hreach ip').
  - intros tb' H. by apply is_rate_limited_true in H as [-> _].
  - intros b Hb Hc.
    assert (Hbo : bucket_of ip t0 tb = b) by (unfold bucket_of; by rewrite Hb).
    split.
    + intros He%window_elapsed_false.
      rewrite is_rate_limited_reject; rewrite Hbo; [|done..].
      by rewrite insert_id.
    + intros He%window_elapsed_true.
      rewrite is_rate_limited_reset; [done|]. by rewrite Hbo.
  - intros tb' H. apply is_rate_limited_false in H as (c & w & Hc & -> & Hcase).
    exists c, w. split; [done|]. split; [by rewrite lookup_insert_eq|].
    destruct Hcase as [(_ & -> & _)|(_ & -> & _)]; [by left|].
    unfold bucket_of. destruct (tb !! ip) as [b|]; simpl; eauto.
Qed.

Lemma exhausted_reachable : reachable exhausted.
Proof. apply requests_reachable, reach_check, reach_start. Qed.

(** C4 on a client that opens a window at time 0 and sends 999 more
    requests at time 1: all are admitted, a request at time 59 is rejected
    and one at time 60 is admitted into a new window. And on a client at
    its limit in a window opened at the float 0.3: the float 60.3 lies less
    than 60 seconds later, but the difference computed is 60.0 and the
    request is admitted into a new window. *)
Lemma fixed_window_counter_witness :
  (requests sample_ip sample_clock opened).1 = replicate 999 false
  ∧ is_rate_limited sample_ip 0 59 exhausted = (true, exhausted)
  ∧ is_rate_limited sample_ip 0 60 exhausted
    = (false, <[sample_ip := {| count := 1; reset_time := 60 |}]> exhausted)
  ∧ (float_60_3 - float_0_3 < RATE_LIMIT_DURATION)%Q
  ∧ is_rate_limited sample_ip 0 float_60_3 full_table
    = (false, <[sample_ip := {| count := 0 + 1; reset_time := float_60_3 |}]>
                full_table).
Proof.
  pose proof (fixed_window_counter sample_ip 0 0 ∅ sample_clock 0)
    as (_ & _ & _ & _ & H & _).
  destruct H as (_ & Hrun & Hnext).
  - vm_compute. reflexivity.
  - vm_compute. reflexivity.
  - apply Forall_replicate. vm_compute. reflexivity.
  - split; [exact Hrun|]. split; [|split; [|split]].
    + refine (proj1 (Hnext 0%Q 59%Q) _). vm_compute. reflexivity.
    + refine (proj2 (Hnext 0%Q 60%Q) _). vm_compute. discriminate.
    + vm_compute. reflexivity.
    + refine (proj1 (fixed_window_counter sample_ip 0 float_60_3 full_table
                       [] 0) _).
      vm_compute. discriminate.
Defined.

(** C8 on a bucket whose window started at time 0: the sweep at time 120
    removes it, the sweep at time 119 keeps it as it is. *)
Lemma cleanup_removes_exactly_stale_witness :
  cleanup_token_buckets 120 idle_table !! sample_ip = None
  ∧ cleanup_token_buckets 119 idle_table !! sample_ip
    = Some {| count := 3; reset_time := 0 |}.
Proof.
  split.
  - apply (cleanup_removes_exactly_stale 120 idle_table sample_ip)
      with (b := {| count := 3; reset_time := 0 |}).
    + vm_compute. reflexivity.
    + vm_compute. discriminate.
  - apply (cleanup_removes_exactly_stale 119 idle_table sample_ip).
    + vm_compute. reflexivity.
    + vm_compute. reflexivity.
Defined.

(** C10 on the table of the client above: it is reachable, its count
    stands at the limit, and the next check inside the window leaves it
    there. *)
Lemma count_never_exceeds_limit_witness :
  reachable exhausted
  ∧ exhausted !! sample_ip = Some {| count := 1000; reset_time := 0 |}
  ∧ is_rate_limited sample_ip 0 59 exhausted = (true, exhausted).
Proof.
  split; [exact exhausted_reachable|]. split; [vm_compute; reflexivity|].
  destruct (count_never_exceeds_limit exhausted exhausted_reachable sample_ip 0 59)
    as (_ & _ & Hfull & _).
  refine (proj1 (Hfull {| count := 1000; reset_time := 0 |} _ _) _).
  - vm_compute. reflexivity.
  - vm_compute. discriminate.
  - vm_compute. reflexivity.
Defined.

(** Against C10 as stated: the same table is reachable and holds the
    count 1000, the limit; the admission check at time 60 finds the window
    elapsed and leaves the count at 1. *)
Lemma full_count_restarts_with_window :
  reachable exhausted
  ∧ exhausted !! sample_ip = Some {| count := 1000; reset_time := 0 |}
  ∧ (is_rate_limited sample_ip 0 60 exhausted).2 !! sample_ip
    = Some {| count := 1; reset_time := 60 |}.
Proof.
  split; [exact exhausted_reachable|]. split; vm_compute; reflexivity.
Qed.

(** ** Trimming *)

Lemma lstrip_head_ok s : head_ok (lstrip s).
Proof.
  induction s as [|c s IH]; simpl; [done|].
  destruct (is_space c) eqn:E; [done|]. by simpl.
Qed.

Lemma lstrip_fixed s : head_ok s → lstrip s = s.
Proof. destruct s as [|c s]; simpl; [done|]. by intros ->. Qed.

Lemma lstrip_snoc s c : is_space c = false → lstrip (s ++ [c]) = lstrip s ++ [c].
Proof.
  intros Hc. induction s as [|a s IH]; simpl.
  - by rewrite Hc.
  - by destruct (is_space a).
Qed.

Lemma rstrip_head_ok s : head_ok s → head_ok (rstrip s).
Proof.
  destruct s as [|c s]; [done|]. simpl. intros Hc.
  unfold rstrip. simpl. rewrite lstrip_snoc by done.
  by rewrite rev_unit.
Qed.

Lemma rstrip_fixed s : head_ok (rev s) → rstrip s = s.
Proof.
  intros H. unfold rstrip. rewrite lstrip_fixed by done. apply rev_involutive.
Qed.

Lemma strip_ends s : head_ok (strip s) ∧ head_ok (rev (strip s)).
Proof.
  unfold strip. split.
  - apply rstrip_head_ok, lstrip_head_ok.
  - unfold rstrip. rewrite rev_involutive. apply lstrip_head_ok.
Qed.

Lemma strip_idemp s : strip (strip s) = strip s.
Proof.
  destruct (strip_ends s) as [H1 H2].
  unfold strip at 1. rewrite (lstrip_fixed _ H1). by apply rstrip_fixed.
Qed.

Lemma is_empty_true s : is_empty s = true ↔ s = [].
Proof. by destruct s. Qed.

Lemma is_empty_false s : is_empty s = false ↔ s ≠ [].
Proof. by destruct s. Qed.

(** ** One verification *)

Section VerificationFacts.

Variable describe : Exn → str.

(** The response is accepted exactly when [credential_of] finds the
    field; every other way through lines 64-90 ends in an exception or in
    an invalid result. *)
Lemma exchange_accepted token p c :
  credential_of p = Some c → exchange token p = inr (valid_result c token).
Proof.
  destruct p as [e|[code body]]; [done|]. simpl.
  destruct code as [|code|]; try done.
  destruct (decide (code = 200%positive)) as [->|Hne].
  2:{ repeat (destruct code as [code|code|]; try done). }
  destruct body as [e|[| | | | |items]]; try done.
  intros Hc. simpl. rewrite Hc. simpl. done.
Qed.

Lemma exchange_refused token p :
  credential_of p = None →
  (∃ e, exchange token p = inl e) ∨ exchange token p = inr (invalid_result MSG_EXPIRED).
Proof.
  destruct p as [e|[code body]]; [by eauto|].
  unfold exchange. cbn [status_code json_body].
  destruct (code =? 200) eqn:Ecode; [|by right].
  apply Z.eqb_eq in Ecode as ->.
  destruct body as [e|v]; [by eauto|]. cbn [bind_raising].
  destruct v as [| | | |xs|items]; cbn [contains bind_raising]; eauto.
  - destruct (str_contains ACCESS_TOKEN s); cbn; eauto.
  - destruct (existsb (is_str ACCESS_TOKEN) xs); cbn; eauto.
  - cbn [credential_of]. intros ->. right. by cbn.
Qed.

Lemma guarded_exchange_accepted token p c :
  credential_of p = Some c → guarded_exchange describe token p = valid_result c token.
Proof. intros H. unfold guarded_exchange. by rewrite (exchange_accepted _ _ _ H). Qed.

Lemma guarded_exchange_refused token p :
  credential_of p = None →
  ∃ msg, guarded_exchange describe token p = invalid_result msg.
Proof.
  intros H. unfold guarded_exchange.
  destruct (exchange_refused token p H) as [[e ->]| ->]; [|by eauto].
  destruct (is_timeout e); eauto.
Qed.

(** The reason of an invalid result of the exchange is that of a
    rejection, of a timeout, or the failure prefix with an exception's
    text. *)
Lemma guarded_exchange_reason token p :
  credential_of p = None →
  ∃ reason, guarded_exchange describe token p = invalid_result reason
            ∧ (reason = MSG_EXPIRED ∨ reason = MSG_TIMEOUT
               ∨ ∃ e, reason = MSG_FAILED ++ describe e).
Proof.
  intros H. unfold guarded_exchange.
  destruct (exchange_refused token p H) as [[e ->]| ->]; [|by eauto].
  destruct (is_timeout e); eauto 6.
Qed.

(** A decoded body in which the key is not found is read as a
    rejection. *)
Lemma exchange_lacking token v :
  contains ACCESS_TOKEN v = inr false →
  exchange token (PostReturns {| status_code := 200; json_body := inr v |})
  = inr (invalid_result MSG_EXPIRED).
Proof.
  intros H. unfold exchange. cbn [status_code json_body bind_raising].
  rewrite Z.eqb_refl. by rewrite H.
Qed.

(** A decoded body that is no object and is not found to lack the key
    makes the membership test or the subscription raise. *)
Lemma exchange_type_error token v :
  (∀ items, v ≠ JObj items) → contains ACCESS_TOKEN v ≠ inr false →
  exchange token (PostReturns {| status_code := 200; json_body := inr v |})
  = inl (TypeError v).
Proof.
  intros Hobj Hc. unfold exchange. cbn [status_code json_body bind_raising].
  rewrite Z.eqb_refl.
  destruct v as [| | |s|xs|items];
    cbn [contains subscript bind_raising] in *; try done.
  - destruct (str_contains ACCESS_TOKEN s); [done | by destruct Hc].
  - destruct (existsb (is_str ACCESS_TOKEN) xs); [done | by destruct Hc].
  - by destruct (Hobj items).
Qed.

End VerificationFacts.

(** ** Scheduling *)

Local Open Scope nat_scope.

Lemma make_tasks_positions tokens : ∀ i,
  length (task_positions i tokens) = length (make_tasks tokens).
Proof.
  induction tokens as [|t tokens IH]; intros i; simpl; [done|].
  destruct (is_empty (strip t)); simpl; by rewrite IH.
Qed.

Lemma make_tasks_length tokens : length (make_tasks tokens) ≤ length tokens.
Proof.
  induction tokens as [|t tokens IH]; simpl; [done|].
  destruct (is_empty (strip t)); simpl; lia.
Qed.

(** The [k]-th task is the trimmed token found at the [k]-th position that
    holds a token with something left after trimming. *)
Lemma task_positions_spec tokens : ∀ i k p,
  task_positions i tokens !! k = Some p →
  i ≤ p ∧ ∃ t, tokens !! (p - i) = Some t ∧ strip t ≠ []
               ∧ make_tasks tokens !! k = Some (strip t).
Proof.
  induction tokens as [|t tokens IH]; intros i k p; simpl; [done|].
  destruct (is_empty (strip t)) eqn:E.
  - intros H. destruct (IH _ _ _ H) as (Hle & t' & Ht' & Hne & Hk).
    split; [lia|]. exists t'. split; [|done].
    replace (p - i) with (S (p - S i)) by lia. done.
  - destruct k as [|k]; simpl.
    + intros [= <-]. split; [done|]. exists t. rewrite Nat.sub_diag.
      split; [done|]. split; [|done]. by apply is_empty_false.
    + intros H. destruct (IH _ _ _ H) as (Hle & t' & Ht' & Hne & Hk).
      split; [lia|]. exists t'. split; [|done].
      replace (p - i) with (S (p - S i)) by lia. done.
Qed.

Lemma task_positions_lookup tokens k p :
  task_positions 0 tokens !! k = Some p →
  ∃ t, tokens !! p = Some t ∧ strip t ≠ [] ∧ make_tasks tokens !! k = Some (strip t).
Proof.
  intros H. destruct (task_positions_spec _ _ _ _ H) as (_ & t & Ht & ?).
  rewrite Nat.sub_0_r in Ht. eauto.
Qed.

Lemma make_tasks_trimmed tokens k token :
  make_tasks tokens !! k = Some token → token ≠ [] ∧ strip token = token.
Proof.
  revert k. induction tokens as [|t tokens IH]; intros k; simpl; [done|].
  destruct (is_empty (strip t)) eqn:E; [by apply IH|].
  destruct k as [|k]; simpl; [|by apply IH].
  intros [= <-]. split; [by apply is_empty_false | apply strip_idemp].
Qed.

(** Without blank tokens every token gets its task, at its own index. *)
Lemma make_tasks_no_blank tokens :
  Forall (λ t, strip t ≠ []) tokens → make_tasks tokens = strip <$> tokens.
Proof.
  induction 1 as [|t tokens Ht _ IH]; simpl; [done|].
  apply is_empty_false in Ht. rewrite Ht. by rewrite IH.
Qed.

Lemma make_tasks_full tokens :
  length (make_tasks tokens) = length tokens → Forall (λ t, strip t ≠ []) tokens.
Proof.
  induction tokens as [|t tokens IH]; cbn [make_tasks length]; [done|].
  destruct (is_empty (strip t)) eqn:E.
  - pose proof (make_tasks_length tokens). lia.
  - cbn [length]. intros [= Hlen]. constructor; [by apply is_empty_false | auto].
Qed.

(** ** The event loop *)

Section LoopFacts.

Variable describe : Exn → str.
Variable tasks : list str.
Variable world : nat → TaskWorld.

(** A coroutine that gets to its POST enters the semaphore, posts its
    trimmed token and leaves with what the exchange gave. *)
Lemma check_token_awaits token w :
  awaits_post token w = true →
  check_token describe token w
  = ([EAcquire; EPost (strip token); ERelease],
     inr (guarded_exchange describe (strip token) (post w))).
Proof.
  unfold awaits_post, check_token. destruct (setup_fault w); [done|].
  by destruct (is_empty (strip token)).
Qed.

Lemma check_token_release token w : ERelease ∈ (check_token describe token w).1.
Proof.
  unfold check_token. destruct (setup_fault w); cbn; [set_solver|].
  destruct (is_empty (strip token)); cbn; set_solver.
Qed.

Lemma start_outcomes l a k :
  outcomes l !! a = None →
  outcomes (start describe tasks world l a) !! k
  = if decide (k = a) then early describe tasks world a else outcomes l !! k.
Proof.
  intros Ha. unfold start, early.
  destruct (tasks !! a) as [token|] eqn:Et; cbn.
  - destruct (awaits_post token (world a)); cbn.
    + case_decide; by subst.
    + case_decide as Hk.
      * subst. by rewrite lookup_insert_eq.
      * by rewrite lookup_insert_ne.
  - case_decide; by subst.
Qed.

Lemma started_prefix_outcomes n k :
  outcomes (foldl (start describe tasks world) {| outcomes := ∅; trace := [] |}
                  (seq 0 n)) !! k
  = if decide (k < n) then early describe tasks world k else None.
Proof.
  induction n as [|n IH] in k |- *.
  - cbn. rewrite lookup_empty. case_decide; [lia | done].
  - rewrite seq_S, foldl_app. cbn [foldl Nat.add].
    rewrite start_outcomes.
    + rewrite IH. repeat case_decide; subst; (done || lia).
    + rewrite IH. case_decide; [lia | done].
Qed.

Lemma started_outcomes k :
  outcomes (started describe tasks world) !! k = early describe tasks world k.
Proof.
  unfold started. rewrite started_prefix_outcomes.
  case_decide as Hk; [done|]. unfold early.
  by rewrite (lookup_ge_None_2 tasks k) by lia.
Qed.

Lemma finish_outcomes l a k :
  outcomes (finish describe tasks world l a) !! k
  = match outcomes l !! k with
    | Some o => Some o
    | None => if decide (k = a)
              then (λ token, (check_token describe token (world k)).2) <$> tasks !! k
              else None
    end.
Proof.
  unfold finish.
  destruct (tasks !! a) as [token|] eqn:Et; cbn.
  - destruct (outcomes l !! a) as [o|] eqn:Eo.
    + destruct (outcomes l !! k) eqn:Ek; [done|].
      case_decide; [congruence|done].
    + cbn. destruct (decide (k = a)) as [->|Hne].
      * by rewrite lookup_insert_eq, Eo, Et.
      * rewrite lookup_insert_ne by done. by destruct (outcomes l !! k).
  - destruct (outcomes l !! k) eqn:Ek; [done|].
    case_decide as Hk; [|done]. subst. by rewrite Et.
Qed.

Lemma foldl_finish_outcomes order : ∀ l k,
  outcomes (foldl (finish describe tasks world) l order) !! k
  = match outcomes l !! k with
    | Some o => Some o
    | None => if decide (k ∈ order)
              then (λ token, (check_token describe token (world k)).2) <$> tasks !! k
              else None
    end.
Proof.
  induction order as [|a order IH]; intros l k; cbn [foldl].
  - destruct (outcomes l !! k); [done|].
    case_decide as Hin; [by apply elem_of_nil in Hin | done].
  - rewrite IH, finish_outcomes.
    destruct (outcomes l !! k) as [o|]; [done|].
    destruct (decide (k = a)) as [->|Hne].
    + rewrite (decide_True (P := a ∈ a :: order)) by left.
      destruct (tasks !! a); cbn; [done|]. by case_decide.
    + destruct (decide (k ∈ order)) as [Hin|Hin].
      * rewrite (decide_True (P := k ∈ a :: order)); [done | by right].
      * rewrite (decide_False (P := k ∈ a :: order)); [done|].
        by intros [?|?]%elem_of_cons.
Qed.

(** A task has its outcome when it ended at its first step or has
    finished since. *)
Lemma run_loop_outcomes order k :
  outcomes (run_loop describe tasks world order) !! k
  = match early describe tasks world k with
    | Some o => Some o
    | None => if decide (k ∈ order)
              then (λ token, (check_token describe token (world k)).2) <$> tasks !! k
              else None
    end.
Proof. unfold run_loop. by rewrite foldl_finish_outcomes, started_outcomes. Qed.

Lemma run_loop_outcomes_Some order k o :
  outcomes (run_loop describe tasks world order) !! k = Some o →
  ∃ token, tasks !! k = Some token ∧ o = (check_token describe token (world k)).2.
Proof.
  rewrite run_loop_outcomes. unfold early.
  destruct (tasks !! k) as [token|]; cbn.
  - destruct (awaits_post token (world k)); [|intros [= <-]; eauto].
    case_decide; [|done]. intros [= <-]. eauto.
  - by case_decide.
Qed.

Lemma run_loop_outcomes_finished order k :
  k ∈ order →
  outcomes (run_loop describe tasks world order) !! k
  = (λ token, (check_token describe token (world k)).2) <$> tasks !! k.
Proof.
  intros Hin. rewrite run_loop_outcomes. unfold early.
  destruct (tasks !! k) as [token|]; cbn.
  - destruct (awaits_post token (world k)); [|done]. by rewrite decide_True.
  - by rewrite decide_True.
Qed.

(** The first step is the beginning of the coroutine's run. *)
Lemma first_events_prefix token w :
  first_events describe token w `prefix_of` (check_token describe token w).1.
Proof.
  unfold first_events. destruct (awaits_post token w) eqn:Ea; [|done].
  rewrite (check_token_awaits _ _ Ea). by exists [ERelease].
Qed.

Lemma start_trace l a :
  Forall (from_task describe tasks world) (trace l) →
  Forall (from_task describe tasks world) (trace (start describe tasks world l a)).
Proof.
  intros Hl. unfold start.
  destruct (tasks !! a) as [token|] eqn:Et; [|done]. cbn.
  apply Forall_app. split; [done|].
  apply Forall_fmap, Forall_forall. intros ev Hev.
  exists token. cbn. split; [done|].
  destruct (first_events_prefix token (world a)) as [rest ->].
  apply elem_of_app. by left.
Qed.

Lemma finish_trace l a :
  Forall (from_task describe tasks world) (trace l) →
  Forall (from_task describe tasks world) (trace (finish describe tasks world l a)).
Proof.
  intros Hl. unfold finish.
  destruct (tasks !! a) as [token|] eqn:Et; [|done].
  destruct (outcomes l !! a); [done|]. cbn.
  apply Forall_app. split; [done|].
  repeat constructor. exists token. cbn. split; [done|].
  apply check_token_release.
Qed.

Lemma run_loop_trace order :
  Forall (from_task describe tasks world) (trace (run_loop describe tasks world order)).
Proof.
  unfold run_loop.
  assert (H0 : Forall (from_task describe tasks world)
                 (trace (started describe tasks world))).
  { unfold started.
    assert (H0 : Forall (from_task describe tasks world)
                   (trace {| outcomes := ∅; trace := [] |})) by constructor.
    revert H0. generalize {| outcomes := ∅; trace := [] |}.
    induction (seq 0 (length tasks)) as [|a ks IH]; intros l Hl; cbn [foldl];
      [done|].
    apply IH. by apply start_trace. }
  revert H0. generalize (started describe tasks world).
  induction order as [|a order IH]; intros l Hl; cbn [foldl]; [done|].
  apply IH. by apply finish_trace.
Qed.

End LoopFacts.

Lemma mapM_seq_imap {A B} (f : nat → option B) (l : list A) :
  ∀ (g : nat → A → B) j,
    (∀ k x, l !! k = Some x → f (j + k) = Some (g k x)) →
    mapM f (seq j (length l)) = Some (imap g l).
Proof.
  induction l as [|x l IH]; intros g j Hf; [done|].
  cbn [length seq imap].
  change (mapM f (j :: seq (S j) (length l))) with
    (y ← f j; k ← mapM f (seq (S j) (length l)); mret (y :: k)).
  rewrite <- (Nat.add_0_r j) at 1. rewrite (Hf 0 x) by done. cbn.
  rewrite (IH (g ∘ S) (S j)); [done|].
  intros k y Hk. replace (S j + k) with (j + S k) by lia. by apply Hf.
Qed.

(** ** The endpoint *)

Local Open Scope nat_scope.

Lemma make_tasks_filter tokens :
  make_tasks tokens = strip <$> filter (λ t, strip t ≠ []) tokens.
Proof.
  induction tokens as [|t tokens IH]; [done|]. cbn [make_tasks].
  destruct (is_empty (strip t)) eqn:E.
  - apply is_empty_true in E. rewrite filter_cons_False by (by intros ?). done.
  - apply is_empty_false in E. rewrite filter_cons_True by done.
    by rewrite fmap_cons, IH.
Qed.

Lemma admission_eq env ip tokens tb :
  admission env ip tokens tb
  = let adm := is_rate_limited ip (t_create env) (t_now env) (sweep env tb) in
    (adm.2,
     if adm.1 then Some (HTTPException 429 DETAIL_429)
     else if MAX_TOKENS_PER_REQUEST <? length tokens
          then Some (HTTPException 400 DETAIL_400) else None).
Proof.
  unfold admission.
  destruct (is_rate_limited ip (t_create env) (t_now env) (sweep env tb)) as [[] tb'];
    cbn [fst snd]; [done|].
  by destruct (MAX_TOKENS_PER_REQUEST <? length tokens).
Qed.

Section EndpointFacts.

Variable describe : Exn → str.

Lemma check_tokens_rejected env ip tokens tb rejection :
  (admission env ip tokens tb).2 = Some rejection →
  check_tokens describe env ip tokens tb
  = ((admission env ip tokens tb).1, [], Some rejection).
Proof.
  unfold check_tokens. destruct (admission env ip tokens tb) as [tb' [r|]]; cbn; [|done].
  by intros [= ->].
Qed.

Lemma check_tokens_limited env ip tokens tb :
  let adm := is_rate_limited ip (t_create env) (t_now env) (sweep env tb) in
  adm.1 = true →
  check_tokens describe env ip tokens tb
  = (adm.2, [], Some (HTTPException 429 DETAIL_429)).
Proof.
  intros adm Hl. unfold adm in *.
  assert (Ha : (admission env ip tokens tb).2 = Some (HTTPException 429 DETAIL_429))
    by (rewrite admission_eq; cbn [snd]; by rewrite Hl).
  rewrite (check_tokens_rejected _ _ _ _ _ Ha). by rewrite admission_eq.
Qed.

Lemma check_tokens_oversized env ip tokens tb :
  let adm := is_rate_limited ip (t_create env) (t_now env) (sweep env tb) in
  adm.1 = false → MAX_TOKENS_PER_REQUEST < length tokens →
  check_tokens describe env ip tokens tb
  = (adm.2, [], Some (HTTPException 400 DETAIL_400)).
Proof.
  intros adm Hl Hlen. apply Nat.ltb_lt in Hlen. unfold adm in *.
  assert (Ha : (admission env ip tokens tb).2 = Some (HTTPException 400 DETAIL_400))
    by (rewrite admission_eq; cbn [snd]; by rewrite Hl, Hlen).
  rewrite (check_tokens_rejected _ _ _ _ _ Ha). by rewrite admission_eq.
Qed.

Lemma check_tokens_admitted env ip tokens tb :
  (admission env ip tokens tb).2 = None →
  check_tokens describe env ip tokens tb
  = ((admission env ip tokens tb).1,
     (validate describe env tokens).1, (validate describe env tokens).2).
Proof.
  unfold check_tokens. destruct (admission env ip tokens tb) as [tb' [r|]]; cbn; [done|].
  intros _. by destruct (validate describe env tokens).
Qed.

(** The table a request leaves behind is the one its admission check
    left, whatever the reply. *)
Lemma check_tokens_table env ip tokens tb :
  (check_tokens describe env ip tokens tb).1.1
  = (is_rate_limited ip (t_create env) (t_now env) (sweep env tb)).2.
Proof.
  destruct ((admission env ip tokens tb).2) as [r|] eqn:Ea.
  - rewrite (check_tokens_rejected _ _ _ _ _ Ea). by rewrite admission_eq.
  - rewrite check_tokens_admitted by done. by rewrite admission_eq.
Qed.

Lemma check_tokens_reachable env ip tokens tb :
  reachable tb → reachable (check_tokens describe env ip tokens tb).1.1.
Proof.
  intros Hr. rewrite check_tokens_table. apply reach_check.
  unfold sweep. destruct (negb _); [by apply reach_sweep | done].
Qed.

(** Once every task has finished, the reply lists the entries of the
    tasks in task order, whatever the order of completion was. *)
Lemma validate_results env tokens :
  gather_fault env = None →
  (∀ k, k < length (make_tasks tokens) → k ∈ completion env) →
  (validate describe env tokens).2
  = Some (Results (imap (λ k token, entry describe token (world env k))
                        (make_tasks tokens))).
Proof.
  intros Hg Hcov. unfold validate. rewrite Hg. cbn [snd]. unfold gather.
  rewrite (mapM_seq_imap _ _
             (λ k token, (check_token describe token (world env k)).2)).
  - cbn. by rewrite fmap_imap.
  - intros k token Hk. cbn.
    rewrite run_loop_outcomes_finished
      by (apply Hcov; by eapply lookup_lt_Some).
    by rewrite Hk.
Qed.

Lemma validate_gather_fault env tokens e :
  gather_fault env = Some e →
  (validate describe env tokens).2 = Some (HTTPException 500 DETAIL_500).
Proof. intros Hg. unfold validate. by rewrite Hg. Qed.

Lemma validate_trace env tokens :
  (validate describe env tokens).1
  = trace (run_loop describe (make_tasks tokens) (world env) (completion env)).
Proof. unfold validate. by destruct (gather_fault env). Qed.

(** What a scheduled task emits: it enters and leaves the semaphore, and
    in between posts its token at most once. *)
Lemma check_token_events token w ev :
  token ≠ [] → strip token = token →
  ev ∈ (check_token describe token w).1 →
  ev = EAcquire ∨ ev = ERelease ∨ ev = EPost token.
Proof.
  intros Hne Hs. unfold check_token.
  destruct (setup_fault w); cbn.
  - rewrite !elem_of_cons, elem_of_nil. tauto.
  - rewrite Hs. apply is_empty_false in Hne. rewrite Hne. cbn.
    rewrite !elem_of_cons, elem_of_nil. tauto.
Qed.

Lemma check_token_fault token w e :
  setup_fault w = Some e →
  check_token describe token w = ([EAcquire; ERelease], inl e).
Proof. intros Hw. unfold check_token. by rewrite Hw. Qed.

End EndpointFacts.

(** ** Entries of the reply *)

Section EntryFacts.

Variable describe : Exn → str.

Lemma posted_iff token w :
  (∃ t, EPost t ∈ (check_token describe token w).1)
  ↔ setup_fault w = None ∧ strip token ≠ [].
Proof.
  unfold check_token. destruct (setup_fault w) as [e|]; cbn.
  - split; [|by intros [? _]]. intros [t Ht].
    rewrite !elem_of_cons, elem_of_nil in Ht. by destruct Ht as [?|[?|[]]].
  - destruct (is_empty (strip token)) eqn:E; cbn.
    + apply is_empty_true in E. split; [|by intros [_ ?]]. intros [t Ht].
      rewrite !elem_of_cons, elem_of_nil in Ht. by destruct Ht as [?|[?|[]]].
    + apply is_empty_false in E. split; [done|]. intros _.
      exists (strip token). rewrite !elem_of_cons. auto.
Qed.

Lemma entry_fault token w e :
  setup_fault w = Some e → entry describe token w = invalid_result MSG_FORMAT.
Proof. intros H. unfold entry. by rewrite (check_token_fault _ _ _ _ H). Qed.

Lemma entry_posted token w :
  setup_fault w = None → strip token ≠ [] →
  entry describe token w = guarded_exchange describe (strip token) (post w).
Proof.
  intros Hw Hne. unfold entry, check_token. rewrite Hw.
  apply is_empty_false in Hne. by rewrite Hne.
Qed.

Lemma entry_empty token w :
  setup_fault w = None → strip token = [] →
  entry describe token w = invalid_result MSG_EMPTY.
Proof. intros Hw He. unfold entry, check_token. by rewrite Hw, He. Qed.

Lemma entry_refused token w :
  credential_of (post w) = None → ∃ msg, entry describe token w = invalid_result msg.
Proof.
  intros Hc. destruct (setup_fault w) as [e|] eqn:Ew.
  { rewrite (entry_fault _ _ _ Ew). eauto. }
  destruct (decide (strip token = [])) as [He|Hne].
  { rewrite entry_empty by done. eauto. }
  rewrite entry_posted by done. by apply guarded_exchange_refused.
Qed.

End EntryFacts.

(** ** Claims on the batch validator *)

(** C1 (as the code has it). For a request that passes admission, with no
    fault of the gather and every task finished, the reply has one entry
    per token that is not blank, in input order: the [k]-th entry is the
    verification of the [k]-th non-blank token, trimmed, and the reply is
    the same for every order in which the tasks finish. Blank tokens get
    no entry, so the reply is as long as the input, and aligned with it
    index by index, exactly when no token is blank. *)
Theorem results_follow_scheduled_tokens (describe : Exn → str) (env : Env)
    (ip : str) (tokens : list str) (tb : Buckets) :
  (admission env ip tokens tb).2 = None →
  gather_fault env = None →
  (∀ k, k < length (make_tasks tokens) → k ∈ completion env) →
  let rs := imap (λ k token, entry describe token (world env k))
                 (make_tasks tokens) in
  (check_tokens describe env ip tokens tb).2 = Some (Results rs)
  ∧ length rs = length (filter (λ t, strip t ≠ []) tokens)
  ∧ (∀ k p, task_positions 0 tokens !! k = Some p →
       ∃ t, tokens !! p = Some t
            ∧ rs !! k = Some (entry describe (strip t) (world env k)))
  ∧ (Forall (λ t, strip t ≠ []) tokens →
       length rs = length tokens
       ∧ ∀ i t, tokens !! i = Some t →
           rs !! i = Some (entry describe (strip t) (world env i)))
  ∧ (length rs = length tokens → Forall (λ t, strip t ≠ []) tokens)
  ∧ (∀ order, (∀ k, k < length (make_tasks tokens) → k ∈ order) →
       (check_tokens describe (with_completion env order) ip tokens tb).2
       = (check_tokens describe env ip tokens tb).2).
Proof.
  intros Hadm Hg Hcov rs.
  assert (Hhere : (check_tokens describe env ip tokens tb).2 = Some (Results rs)).
  { rewrite check_tokens_admitted by done. cbn [snd]. by apply validate_results. }
  split; [done|]. split; [|split; [|split; [|split]]].
  - unfold rs. by rewrite length_imap, make_tasks_filter, length_fmap.
  - intros k p Hp. apply task_positions_lookup in Hp as (t & Ht & _ & Hk).
    exists t. split; [done|]. unfold rs. by rewrite list_lookup_imap, Hk.
  - intros Hnb. unfold rs. rewrite length_imap, make_tasks_no_blank by done.
    rewrite length_fmap. split; [done|]. intros i t Ht.
    by rewrite list_lookup_imap, list_lookup_fmap, Ht.
  - unfold rs. rewrite length_imap. apply make_tasks_full.
  - intros order Hord. rewrite Hhere.
    rewrite check_tokens_admitted by done. cbn [snd]. by apply validate_results.
Qed.

(** C2 (as the code has it). A token that is empty or white space only
    is skipped: no task is scheduled at its position, so no event of the
    run (no entry into the semaphore, no POST) belongs to it, and the reply
    has entries for the scheduled positions only, hence none for it. Every
    token that is posted is the trimmed, non-empty token of its task. *)
Theorem blank_tokens_are_skipped (describe : Exn → str) (env : Env)
    (ip : str) (tokens : list str) (tb : Buckets) (i : nat) (t : str) :
  tokens !! i = Some t → blank t →
  let run := check_tokens describe env ip tokens tb in
  (i ∉ task_positions 0 tokens)
  ∧ (∀ k ev, (k, ev) ∈ run.1.2 →
       ∃ p t', task_positions 0 tokens !! k = Some p ∧ p ≠ i
               ∧ tokens !! p = Some t' ∧ ¬ blank t'
               ∧ (ev = EAcquire ∨ ev = ERelease ∨ ev = EPost (strip t')))
  ∧ (∀ rs, run.2 = Some (Results rs) →
       length rs = length (task_positions 0 tokens)).
Proof.
  intros Ht Hb run.
  assert (Hpos : ∀ k p, task_positions 0 tokens !! k = Some p → p ≠ i).
  { intros k p Hp ->. apply task_positions_lookup in Hp as (t' & Ht' & Hne & _).
    rewrite Ht in Ht'. injection Ht' as <-. done. }
  split; [|split].
  - intros (k & Hk)%list_elem_of_lookup. by apply (Hpos k i).
  - intros k ev Hin.
    assert (Htr : Forall (from_task describe (make_tasks tokens) (world env)) run.1.2).
    { unfold run. destruct ((admission env ip tokens tb).2) as [r|] eqn:Ea.
      - rewrite (check_tokens_rejected _ _ _ _ _ _ Ea). constructor.
      - rewrite check_tokens_admitted by done. cbn [fst snd].
        rewrite validate_trace. apply run_loop_trace. }
    rewrite Forall_forall in Htr. destruct (Htr _ Hin) as (token & Hk & Hev).
    cbn [fst snd] in Hk, Hev.
    assert (Hlt : k < length (task_positions 0 tokens)).
    { rewrite make_tasks_positions. by eapply lookup_lt_Some. }
    apply lookup_lt_is_Some in Hlt as [p Hp].
    destruct (task_positions_lookup _ _ _ Hp) as (t' & Ht' & Hne & Hk').
    rewrite Hk in Hk'. injection Hk' as ->.
    exists p, t'. split; [done|]. split; [by eapply Hpos|].
    split; [done|]. split; [done|].
    eapply check_token_events; [done | apply strip_idemp | done].
  - intros rs Hrs. unfold run in Hrs.
    destruct ((admission env ip tokens tb).2) as [r|] eqn:Ea.
    { rewrite (check_tokens_rejected _ _ _ _ _ _ Ea) in Hrs.
      cbn [snd] in Hrs. injection Hrs as ->.
      rewrite admission_eq in Ea. cbn [snd] in Ea.
      repeat case_match; congruence. }
    rewrite check_tokens_admitted in Hrs by done. cbn [snd] in Hrs.
    unfold validate in Hrs. destruct (gather_fault env); [done|].
    cbn [snd] in Hrs.
    destruct (gather _ _) as [results|] eqn:Eg; [|done].
    injection Hrs as <-. rewrite length_fmap.
    apply mapM_Some_1, Forall2_length in Eg.
    rewrite length_seq in Eg. by rewrite <- Eg, make_tasks_positions.
Qed.

(** C7. A request of a client over its rate allowance (its bucket, after
    the sweep, is inside its window with the count at the limit) is
    rejected with status 429, and otherwise a request with more than
    [MAX_TOKENS_PER_REQUEST] tokens is rejected with status 400; the two
    errors differ, and in both cases the run has no event: no task was
    created, nothing entered the semaphore, nothing was posted. *)
Theorem rejections_skip_validation (describe : Exn → str) (env : Env)
    (ip : str) (tokens : list str) (tb : Buckets) :
  let adm := is_rate_limited ip (t_create env) (t_now env) (sweep env tb) in
  (adm.1 = true →
     check_tokens describe env ip tokens tb
     = (adm.2, [], Some (HTTPException 429 DETAIL_429)))
  ∧ (adm.1 = false → MAX_TOKENS_PER_REQUEST < length tokens →
       check_tokens describe env ip tokens tb
       = (adm.2, [], Some (HTTPException 400 DETAIL_400)))
  ∧ HTTPException 429 DETAIL_429 ≠ HTTPException 400 DETAIL_400
  ∧ (adm.1 = true
     ↔ ∃ b, sweep env tb !! ip = Some b ∧ (MAX_REQUESTS <= count b)%Z
            ∧ window_elapsed (t_now env) b = false).
Proof.
  intros adm. split; [|split; [|split]].
  - by apply check_tokens_limited.
  - by apply check_tokens_oversized.
  - discriminate.
  - apply is_rate_limited_true_iff.
Qed.

(** C9. A request with too many tokens has met the rate check first.
    When that check admits it, the request is answered 400 with no
    validation work, and the client's bucket, created if the identity was
    not known, holds the count the check found (0 for a new identity or a
    new window) plus one. *)
Theorem oversized_request_is_counted (describe : Exn → str) (env : Env)
    (ip : str) (tokens : list str) (tb : Buckets) :
  MAX_TOKENS_PER_REQUEST < length tokens →
  (is_rate_limited ip (t_create env) (t_now env) (sweep env tb)).1 = false →
  let b := bucket_of ip (t_create env) (sweep env tb) in
  let c := if window_elapsed (t_now env) b then 0%Z else count b in
  let w := if window_elapsed (t_now env) b then t_now env else reset_time b in
  check_tokens describe env ip tokens tb
  = (<[ip := {| count := c + 1; reset_time := w |}]> (sweep env tb), [],
     Some (HTTPException 400 DETAIL_400))
  ∧ (sweep env tb !! ip = None → c = 0%Z)
  ∧ (c < MAX_REQUESTS)%Z.
Proof.
  intros Hlen Hadm b c w.
  rewrite check_tokens_oversized by done.
  assert (Hnone : sweep env tb !! ip = None → c = 0%Z).
  { intros Hn. unfold c, b, bucket_of. rewrite Hn. cbn. by case_match. }
  destruct (is_rate_limited ip (t_create env) (t_now env) (sweep env tb))
    as [r tb'] eqn:E.
  cbn [fst snd] in *. subst r.
  apply is_rate_limited_false in E as (c' & w' & Hc & -> & Hcase).
  fold b in Hcase.
  assert (c' = c ∧ w' = w) as [-> ->].
  { unfold c, w. by destruct Hcase as [(-> & -> & ->)|(-> & -> & ->)]. }
  done.
Qed.

(** C1 on three tokens, the second one blank, with the tasks finishing
    in reverse order: two entries, in input order. *)
Lemma results_follow_scheduled_tokens_witness :
  (check_tokens sample_describe sample_run sample_ip sample_tokens ∅).2
  = Some (Results [accepted (lit "a"); accepted (lit "b")]).
Proof.
  refine (proj1 (results_follow_scheduled_tokens sample_describe sample_run
                   sample_ip sample_tokens ∅ _ _ _)).
  - vm_compute. reflexivity.
  - reflexivity.
  - intros k Hk. change (length (make_tasks sample_tokens)) with 2 in Hk.
    destruct k as [|[|k]]; [set_solver | set_solver | lia].
Defined.

(** Against C1 as stated: the reply to a batch that holds a blank token
    is shorter than the batch, and its entry at the blank token's index belongs to a later
    token. *)
Lemma blank_token_shortens_reply :
  (admission sample_run sample_ip sample_tokens ∅).2 = None
  ∧ ∃ rs, (check_tokens sample_describe sample_run sample_ip sample_tokens ∅).2
          = Some (Results rs)
          ∧ length rs ≠ length sample_tokens
          ∧ sample_tokens !! 1 = Some (lit "  ")
          ∧ rs !! 1 = Some (accepted (lit "b")).
Proof.
  split; [vm_compute; reflexivity|].
  exists [accepted (lit "a"); accepted (lit "b")].
  split; [vm_compute; reflexivity|]. split; [cbn; lia|]. done.
Qed.

(** C2 on the same batch: no task stands for the blank token at
    index 1. *)
Lemma blank_tokens_are_skipped_witness :
  sample_tokens !! 1 = Some (lit "  ") ∧ blank (lit "  ")
  ∧ 1 ∉ task_positions 0 sample_tokens.
Proof.
  assert (H1 : sample_tokens !! 1 = Some (lit "  ")) by reflexivity.
  assert (H2 : blank (lit "  ")) by reflexivity.
  split; [exact H1|]. split; [exact H2|].
  exact (proj1 (blank_tokens_are_skipped sample_describe sample_run sample_ip
                  sample_tokens ∅ 1 (lit "  ") H1 H2)).
Defined.

(** Against C2 as stated: a batch made of one blank token is answered
    with the empty list: no
    entry, invalid or other, stands at the token's index. *)
Lemma blank_token_has_no_entry :
  blank (lit "  ")
  ∧ ∃ rs, (check_tokens sample_describe sample_run sample_ip [lit "  "] ∅).2
          = Some (Results rs)
          ∧ rs !! 0 = None.
Proof.
  split; [reflexivity|]. exists []. split; [vm_compute; reflexivity | done].
Qed.

(** C7 on a client that has used up its window (429) and on a batch of
    six tokens from a new client (400). *)
Lemma rejections_skip_validation_witness :
  check_tokens sample_describe sample_run sample_ip sample_tokens exhausted
  = (exhausted, [], Some (HTTPException 429 DETAIL_429))
  ∧ check_tokens sample_describe sample_run sample_ip (replicate 6 (lit "a")) ∅
    = (opened, [], Some (HTTPException 400 DETAIL_400)).
Proof.
  split.
  - refine (eq_trans (proj1 (rejections_skip_validation sample_describe sample_run
              sample_ip sample_tokens exhausted) _) _).
    + vm_compute. reflexivity.
    + vm_compute. reflexivity.
  - refine (eq_trans (proj1 (proj2 (rejections_skip_validation sample_describe
              sample_run sample_ip (replicate 6 (lit "a")) ∅)) _ _) _).
    + vm_compute. reflexivity.
    + cbn. unfold MAX_TOKENS_PER_REQUEST. lia.
    + vm_compute. reflexivity.
Defined.

(** C9 on a batch of six tokens from a new client: the answer is 400 and
    the client's new bucket counts one request. *)
Lemma oversized_request_is_counted_witness :
  check_tokens sample_describe sample_run sample_ip (replicate 6 (lit "a")) ∅
  = (<[sample_ip := {| count := 0 + 1; reset_time := 0 |}]> ∅, [],
     Some (HTTPException 400 DETAIL_400)).
Proof.
  refine (proj1 (oversized_request_is_counted sample_describe sample_run sample_ip
                   (replicate 6 (lit "a")) ∅ _ _)).
  - cbn. unfold MAX_TOKENS_PER_REQUEST. lia.
  - vm_compute. reflexivity.
Defined.
(** ** Claims on single verifications and on failures *)

(** C6 (as the code has it). The entry for a token is tagged valid, with
    the credential the authority sent and the token trimmed of surrounding
    white space, which is the token as it was posted, if and only if the call
    was issued and answered by HTTP 200 with a JSON object that has the
    field [access_token]; it carries the token as it was given when that
    has no surrounding white space. In every other case the entry is tagged
    invalid and carries a reason, no credential and no token; the reason is
    that of an empty token, of a rejection, of a timeout or of a task that
    raised, or the failure prefix followed by an exception's text. *)
Theorem valid_iff_accepted (describe : Exn → str) (token : str) (w : TaskWorld) :
  let run := check_token describe token w in
  let r := process run.2 in
  (∀ c, answered_with run.1 (post w) c →
        status r = lit "valid" ∧ message r = MSG_VALID
        ∧ access_token r = c ∧ refresh_token r = Some (strip token))
  ∧ (∀ c, answered_with run.1 (post w) c → strip token = token →
          refresh_token r = Some token)
  ∧ ((∀ c, ¬ answered_with run.1 (post w) c) →
       status r = lit "invalid" ∧ access_token r = JNull
       ∧ refresh_token r = None
       ∧ (message r ∈ [MSG_EMPTY; MSG_EXPIRED; MSG_TIMEOUT; MSG_FORMAT]
          ∨ ∃ e, message r = MSG_FAILED ++ describe e))
  ∧ (status r = lit "valid" ↔ ∃ c, answered_with run.1 (post w) c)
  ∧ (status r ≠ lit "valid" ↔ status r = lit "invalid").
Proof.
  intros run r. subst r run.
  change (process (check_token describe token w).2) with (entry describe token w).
  set (events := (check_token describe token w).1).
  assert (Hyes : ∀ c, answered_with events (post w) c →
                      entry describe token w = valid_result c (strip token)).
  { intros c [[Hw Hne]%posted_iff Hc].
    rewrite entry_posted by done. by apply guarded_exchange_accepted. }
  assert (Hcases :
    (∃ c, answered_with events (post w) c)
    ∨ ((∀ c, ¬ answered_with events (post w) c)
       ∧ ∃ reason, entry describe token w = invalid_result reason
           ∧ (reason ∈ [MSG_EMPTY; MSG_EXPIRED; MSG_TIMEOUT; MSG_FORMAT]
              ∨ ∃ e, reason = MSG_FAILED ++ describe e))).
  { destruct (setup_fault w) as [e|] eqn:Ew.
    { right. split.
      - intros c' [[Hw _]%posted_iff _]. congruence.
      - rewrite (entry_fault describe _ _ _ Ew). eexists. split; [done|].
        left. set_solver. }
    destruct (decide (strip token = [])) as [He|Hne].
    { right. split.
      - by intros c' [[_ Hne]%posted_iff _].
      - rewrite entry_empty by done. eexists. split; [done|].
        left. set_solver. }
    destruct (credential_of (post w)) as [c|] eqn:Ec.
    - left. exists c. split; [by apply posted_iff | done].
    - right. split.
      + intros c [_ Hc]. congruence.
      + rewrite entry_posted by done.
        destruct (guarded_exchange_reason describe (strip token) _ Ec)
          as (reason & -> & [->|[->|He]]); eexists; (split; [done|]).
        * left. set_solver.
        * left. set_solver.
        * by right. }
  split; [|split; [|split; [|split]]].
  - intros c Hc. by rewrite (Hyes c Hc).
  - intros c Hc Hs. rewrite (Hyes c Hc). cbn. by rewrite Hs.
  - intros Hn. destruct Hcases as [[c Hc]|[_ (reason & -> & Hr)]];
      [by destruct (Hn c) | done].
  - split.
    + intros Hv. destruct Hcases as [Hc|[_ (reason & Hm & _)]]; [done|].
      by rewrite Hm in Hv.
    + intros [c Hc]. by rewrite (Hyes c Hc).
  - destruct Hcases as [[c Hc]|[_ (reason & -> & _)]].
    + by rewrite (Hyes c Hc).
    + done.
Qed.

(** C3 (as the code has it). Every failure of a single verification is
    an invalid result with a reason. The reason is that of a rejection for
    a status other than 200 and also for a 200 whose decoded body is not
    found to hold the key; that of a timeout for a timeout of the POST; the
    failure prefix followed by the exception's text for any other failure
    of the POST, for a body that does not decode, and for a decoded body on
    which the membership test or the subscription raises. The five kinds
    of reason differ from one another, and two failures differ exactly
    when their exception texts do; an invalid result is tagged invalid and
    carries the reason, no credential and no token. A task whose coroutine
    could start always returns a result. In a batch that passed
    admission, when the gather does not fault and every task finishes, the
    reply has one entry per scheduled task, the entry of a task that raised
    being the invalid "Invalid token format" and the entry of a task the
    authority did not accept being invalid; when the gather itself faults,
    the reply is the single error 500. *)
Theorem failures_are_data (describe : Exn → str) (env : Env) (ip : str)
    (tokens : list str) (tb : Buckets) :
  (∀ token r, status_code r ≠ 200%Z →
     guarded_exchange describe token (PostReturns r) = invalid_result MSG_EXPIRED)
  ∧ (∀ token v, contains ACCESS_TOKEN v = inr false →
       guarded_exchange describe token
         (PostReturns {| status_code := 200; json_body := inr v |})
       = invalid_result MSG_EXPIRED)
  ∧ (∀ token info,
       guarded_exchange describe token (PostRaises (TimeoutException info))
       = invalid_result MSG_TIMEOUT)
  ∧ (∀ token e, is_timeout e = false →
       guarded_exchange describe token (PostRaises e)
       = invalid_result (MSG_FAILED ++ describe e))
  ∧ (∀ token e, is_timeout e = false →
       guarded_exchange describe token
         (PostReturns {| status_code := 200; json_body := inl e |})
       = invalid_result (MSG_FAILED ++ describe e))
  ∧ (∀ token v, (∀ items, v ≠ JObj items) →
       contains ACCESS_TOKEN v ≠ inr false →
       guarded_exchange describe token
         (PostReturns {| status_code := 200; json_body := inr v |})
       = invalid_result (MSG_FAILED ++ describe (TypeError v)))
  ∧ (∀ x, NoDup [MSG_EMPTY; MSG_EXPIRED; MSG_TIMEOUT; MSG_FAILED ++ x;
                 MSG_FORMAT])
  ∧ (∀ x y, invalid_result (MSG_FAILED ++ x) = invalid_result (MSG_FAILED ++ y)
            ↔ x = y)
  ∧ (∀ reason, status (invalid_result reason) = lit "invalid"
               ∧ message (invalid_result reason) = reason
               ∧ access_token (invalid_result reason) = JNull
               ∧ refresh_token (invalid_result reason) = None)
  ∧ (∀ token w, setup_fault w = None →
       ∃ r, (check_token describe token w).2 = inr r)
  ∧ ((admission env ip tokens tb).2 = None →
     (gather_fault env = None →
      (∀ k, k < length (make_tasks tokens) → k ∈ completion env) →
      ∃ rs, (check_tokens describe env ip tokens tb).2 = Some (Results rs)
            ∧ length rs = length (make_tasks tokens)
            ∧ ∀ k token, make_tasks tokens !! k = Some token →
                (∀ e, setup_fault (world env k) = Some e →
                      rs !! k = Some (invalid_result MSG_FORMAT))
                ∧ (credential_of (post (world env k)) = None →
                   ∃ reason, rs !! k = Some (invalid_result reason)))
     ∧ (∀ e, gather_fault env = Some e →
          (check_tokens describe env ip tokens tb).2
          = Some (HTTPException 500 DETAIL_500))).
Proof.
  repeat apply conj.
  - intros token r Hr. unfold guarded_exchange, exchange.
    apply Z.eqb_neq in Hr. by rewrite Hr.
  - intros token v Hv. unfold guarded_exchange.
    by rewrite exchange_lacking.
  - done.
  - intros token e He. unfold guarded_exchange. cbn. by rewrite He.
  - intros token e He. unfold guarded_exchange. cbn. by rewrite He.
  - intros token v Hobj Hv. unfold guarded_exchange.
    by rewrite exchange_type_error.
  - intros x.
    repeat (apply NoDup_cons; split;
            [rewrite ?elem_of_cons, elem_of_nil; intros H;
             repeat destruct H as [H|H]; (discriminate || done)|]).
    apply NoDup_nil_2.
  - intros x y. split; [|by intros ->].
    intros [= H]. exact H.
  - done.
  - intros token w Hw. unfold check_token. rewrite Hw.
    destruct (is_empty (strip token)); cbn; eauto.
  - intros Hadm. split.
    + intros Hg Hcov. eexists. split; [|split].
      * rewrite check_tokens_admitted by done. cbn [snd].
        by apply validate_results.
      * by rewrite length_imap.
      * intros k token Hk. rewrite list_lookup_imap, Hk. cbn. split.
        -- intros e He. by rewrite (entry_fault describe _ _ _ He).
        -- intros Hc. destruct (entry_refused describe token _ Hc) as [msg ->]. eauto.
    + intros e Hg. rewrite check_tokens_admitted by done. cbn [snd].
      by eapply validate_gather_fault.
Qed.

(** C6 on an authority that accepts (the entry is valid and carries the
    trimmed token) and on one that answers 403 (the entry is invalid). *)
Lemma valid_iff_accepted_witness :
  (status (entry sample_describe (lit " a ") accepting) = lit "valid"
   ∧ message (entry sample_describe (lit " a ") accepting) = MSG_VALID
   ∧ access_token (entry sample_describe (lit " a ") accepting)
     = JStr (lit "credential")
   ∧ refresh_token (entry sample_describe (lit " a ") accepting)
     = Some (lit "a"))
  ∧ status (entry sample_describe (lit "a") refusing) = lit "invalid".
Proof.
  assert (Ha : answered_with (check_token sample_describe (lit " a ") accepting).1
                 (post accepting) (JStr (lit "credential"))).
  { split; [|reflexivity]. exists (lit "a"). vm_compute. set_solver. }
  pose proof (valid_iff_accepted sample_describe (lit " a ") accepting)
    as (Hyes & _).
  pose proof (valid_iff_accepted sample_describe (lit "a") refusing)
    as (_ & _ & Hno & _).
  split.
  - exact (Hyes _ Ha).
  - apply Hno. intros c [_ Hc]. discriminate.
Defined.

(** Against C6 as stated: the token [" a "] is submitted and accepted;
    the valid entry of the reply carries ["a"], not the token as it was
    submitted. *)
Lemma valid_entry_carries_trimmed_token :
  ∃ r, (check_tokens sample_describe (sample_world accepting) sample_ip
          [lit " a "] ∅).2 = Some (Results [r])
       ∧ status r = lit "valid"
       ∧ refresh_token r = Some (lit "a")
       ∧ refresh_token r ≠ Some (lit " a ").
Proof.
  exists (accepted (lit "a")).
  split; [vm_compute; reflexivity|]. split; [done|]. split; [done|].
  discriminate.
Qed.

(** C3 on a refusing authority and on the sample batch: an invalid
    result with the reason of a rejection, and a reply with one entry per
    scheduled task. *)
Lemma failures_are_data_witness :
  guarded_exchange sample_describe (lit "a") (post refusing)
  = invalid_result MSG_EXPIRED
  ∧ ∃ rs, (check_tokens sample_describe sample_run sample_ip sample_tokens ∅).2
          = Some (Results rs) ∧ length rs = 2.
Proof.
  pose proof (failures_are_data sample_describe sample_run sample_ip sample_tokens ∅)
    as (Hstatus & _ & _ & _ & _ & _ & _ & _ & _ & _ & Hbatch).
  split.
  - apply Hstatus. discriminate.
  - destruct Hbatch as [Hok _]; [vm_compute; reflexivity|].
    destruct Hok as (rs & Hrs & Hlen & _).
    + reflexivity.
    + intros k Hk. change (length (make_tasks sample_tokens)) with 2 in Hk.
      destruct k as [|[|k]]; [set_solver | set_solver | lia].
    + exists rs. split; [exact Hrs | exact Hlen].
Defined.

(** Against C3 as stated. The reason does not tell a malformed body from
    a rejection: an authority that answers 200 with the empty JSON object
    and one that answers 403 get the same reply. Nor does it tell a failed
    request from a body that does not decode, when the two exceptions have
    the same text. And when the gather itself raises, the request that
    passed admission is answered with the single error 500, not with a
    list of invalid entries. *)
Lemma malformed_body_reads_as_rejection :
  ((check_tokens sample_describe (sample_world keyless) sample_ip [lit "a"] ∅).2
   = Some (Results [invalid_result MSG_EXPIRED])
   ∧ (check_tokens sample_describe (sample_world refusing) sample_ip [lit "a"] ∅).2
     = Some (Results [invalid_result MSG_EXPIRED]))
  ∧ (check_tokens sample_describe (sample_world unreachable) sample_ip [lit "a"] ∅).2
    = (check_tokens sample_describe (sample_world garbled) sample_ip [lit "a"] ∅).2
  ∧ ((admission faulty_run sample_ip [lit "a"] ∅).2 = None
     ∧ (check_tokens sample_describe faulty_run sample_ip [lit "a"] ∅).2
       = Some (HTTPException 500 DETAIL_500)).
Proof. repeat split; vm_compute; reflexivity. Qed.

(** ** The concurrency gate *)

Lemma new_batch_ok tokens :
  length tokens ≤ MAX_TOKENS_PER_REQUEST → gate_ok (new_batch tokens).
Proof.
  intros Hlen. unfold gate_ok, new_batch. cbn [sem_value in_flight waiting].
  pose proof (make_tasks_length tokens). lia.
Qed.

Lemma acquire_ok b b' : gate_ok b → acquire b = Some b' → gate_ok b'.
Proof.
  unfold gate_ok, acquire. intros [H1 H2].
  destruct (waiting b) as [|n] eqn:Ew; [done|].
  destruct (sem_value b) as [|v] eqn:Ev; [done|].
  intros [= <-]. cbn [sem_value in_flight waiting]. lia.
Qed.

Lemma release_ok b b' : gate_ok b → release b = Some b' → gate_ok b'.
Proof.
  unfold gate_ok, release. intros [H1 H2].
  destruct (in_flight b) as [|n] eqn:Ei; [done|].
  intros [= <-]. cbn [sem_value in_flight waiting]. lia.
Qed.

Lemma Forall_gate_insert sys i b :
  Forall gate_ok sys → gate_ok b → Forall gate_ok (<[i := b]> sys).
Proof.
  intros Hs Hb. apply Forall_forall. intros x Hx.
  apply list_elem_of_lookup in Hx as [j Hj].
  destruct (decide (i = j)) as [->|Hne].
  - destruct (decide (j < length sys)) as [Hlt|Hge].
    + rewrite list_lookup_insert_eq in Hj by done. by injection Hj as <-.
    + rewrite list_insert_ge in Hj by lia.
      rewrite Forall_forall in Hs. apply Hs. by eapply list_elem_of_lookup_2.
  - rewrite list_lookup_insert_ne in Hj by done.
    rewrite Forall_forall in Hs. apply Hs. by eapply list_elem_of_lookup_2.
Qed.

Lemma step_ok sys a sys' :
  Forall gate_ok sys → step sys a = Some sys' → Forall gate_ok sys'.
Proof.
  intros Hs. destruct a as [tokens|i|i]; cbn [step].
  - destruct (MAX_TOKENS_PER_REQUEST <? length tokens) eqn:E; [done|].
    intros [= <-]. apply Nat.ltb_ge in E.
    apply Forall_app. split; [done|]. apply Forall_singleton. by apply new_batch_ok.
  - destruct (sys !! i) as [b|] eqn:Eb; cbn; [|done].
    destruct (acquire b) as [b'|] eqn:Ea; cbn; [|done].
    intros [= <-]. apply Forall_gate_insert; [done|].
    eapply acquire_ok; [|done].
    rewrite Forall_forall in Hs. apply Hs. by eapply list_elem_of_lookup_2.
  - destruct (sys !! i) as [b|] eqn:Eb; cbn; [|done].
    destruct (release b) as [b'|] eqn:Ea; cbn; [|done].
    intros [= <-]. apply Forall_gate_insert; [done|].
    eapply release_ok; [|done].
    rewrite Forall_forall in Hs. apply Hs. by eapply list_elem_of_lookup_2.
Qed.

Lemma run_ok actions : ∀ sys sys',
  Forall gate_ok sys → run sys actions = Some sys' → Forall gate_ok sys'.
Proof.
  induction actions as [|a actions IH]; intros sys sys' Hs; cbn [run].
  - by intros [= <-].
  - destruct (step sys a) as [sys1|] eqn:E; cbn; [|done].
    apply IH. by eapply step_ok.
Qed.

(** C5 (as the code has it). The semaphore belongs to one request: in
    every state the service can reach, each request has at most
    [MAX_CONCURRENT_CONNECTIONS] calls in flight, the units taken from its
    semaphore being exactly its calls in flight. As admission lets in at
    most [MAX_TOKENS_PER_REQUEST] tokens, a request never has more than
    that many calls in flight and none of its tasks ever waits at the
    semaphore. *)
Theorem ceiling_is_per_request (actions : list Action) (sys : list Batch)
    (i : nat) (b : Batch) :
  run [] actions = Some sys → sys !! i = Some b →
  in_flight b ≤ MAX_CONCURRENT_CONNECTIONS
  ∧ sem_value b + in_flight b = MAX_CONCURRENT_CONNECTIONS
  ∧ in_flight b ≤ MAX_TOKENS_PER_REQUEST
  ∧ (waiting b ≠ 0 → is_Some (acquire b)).
Proof.
  intros Hrun Hb.
  assert (Hok : gate_ok b).
  { pose proof (run_ok actions [] sys (Forall_nil_2 _) Hrun) as Hs.
    rewrite Forall_forall in Hs. apply Hs. by eapply list_elem_of_lookup_2. }
  destruct Hok as [H1 H2]. split; [lia|]. split; [done|]. split; [lia|].
  intros Hw. unfold acquire.
  destruct (waiting b) as [|n] eqn:Ew; [done|].
  destruct (sem_value b) as [|v] eqn:Ev; [|by eauto].
  exfalso. unfold MAX_CONCURRENT_CONNECTIONS, MAX_TOKENS_PER_REQUEST in *. lia.
Qed.

(** C5 on one request of two tokens, one of them inside the
    semaphore. *)
Lemma ceiling_is_per_request_witness :
  run [] [Arrive [lit "a"; lit "b"]; Enter 0]
  = Some [{| sem_value := 4999; waiting := 1; in_flight := 1 |}]
  ∧ 1 ≤ MAX_CONCURRENT_CONNECTIONS.
Proof.
  assert (Hrun : run [] [Arrive [lit "a"; lit "b"]; Enter 0]
                 = Some [{| sem_value := 4999; waiting := 1; in_flight := 1 |}])
    by (vm_compute; reflexivity).
  split; [exact Hrun|].
  exact (proj1 (ceiling_is_per_request _ _ 0
                  {| sem_value := 4999; waiting := 1; in_flight := 1 |}
                  Hrun eq_refl)).
Defined.

(** Against C5 as stated: with 1001 requests of five tokens each being
    served, 5005 calls are
    in flight at once: more than [MAX_CONCURRENT_CONNECTIONS]. *)
Lemma flood_exceeds_ceiling :
  (λ sys, bool_decide (total_in_flight sys ≤ MAX_CONCURRENT_CONNECTIONS))
    <$> run [] (flood 1001)
  = Some false.
Proof. vm_compute. reflexivity. Qed.

(** * Further properties of the admission controller *)

Local Open Scope Z_scope.

Lemma requests_app ip clock1 clock2 : ∀ tb : Buckets,
  requests ip (clock1 ++ clock2) tb
  = ((requests ip clock1 tb).1 ++ (requests ip clock2 (requests ip clock1 tb).2).1,
     (requests ip clock2 (requests ip clock1 tb).2).2).
Proof.
  induction clock1 as [|[t0 t] clock1 IH]; intros tb.
  - cbn. by destruct (requests ip clock2 tb).
  - cbn [app requests].
    destruct (is_rate_limited ip t0 t tb) as [r tb1]. rewrite IH.
    destruct (requests ip clock1 tb1) as [rs1 tb2]. cbn [fst snd].
    by destruct (requests ip clock2 tb2).
Qed.

Lemma requests_at_limit ip w clock : ∀ c (tb : Buckets),
  tb !! ip = Some {| count := c; reset_time := w |} →
  MAX_REQUESTS <= c →
  Forall (λ t : Q * Q, (float_sub t.2 w < RATE_LIMIT_DURATION)%Q) clock →
  requests ip clock tb = (replicate (length clock) true, tb).
Proof.
  induction clock as [|[t0 t] clock IH]; intros c tb Hb Hc Hw; [done|].
  apply Forall_cons in Hw as [Ht Hw]. cbn [snd] in Ht.
  assert (Hbo : bucket_of ip t0 tb = {| count := c; reset_time := w |})
    by (unfold bucket_of; by rewrite Hb).
  cbn [requests length replicate].
  rewrite is_rate_limited_reject; rewrite Hbo;
    [| by apply window_elapsed_false | done].
  rewrite insert_id by done. by rewrite (IH c).
Qed.

(** X1. Inside one window the limiter admits requests until the count
    reaches the limit and rejects all that follow: from a bucket with count
    [c], of [n] requests whose checks find the window not elapsed (the
    float difference of line 38 is below the window duration) the first
    [min n (MAX_REQUESTS - c)] are admitted and counted, the others are
    rejected. *)
Theorem window_admits_up_to_limit (ip : str) (w : Q) (c : Z)
    (clock : list (Q * Q)) (tb : Buckets) :
  tb !! ip = Some {| count := c; reset_time := w |} →
  Forall (λ t : Q * Q, (float_sub t.2 w < RATE_LIMIT_DURATION)%Q) clock →
  let k := (length clock `min` Z.to_nat (MAX_REQUESTS - c))%nat in
  requests ip clock tb
  = (replicate k false ++ replicate (length clock - k) true,
     <[ip := {| count := c + Z.of_nat k; reset_time := w |}]> tb).
Proof.
  intros Hb Hw k.
  assert (Hmin : k = (length clock `min` Z.to_nat (MAX_REQUESTS - c))%nat) by done.
  clearbody k.
  destruct (Z_le_gt_dec c MAX_REQUESTS) as [Hle|Hgt].
  - rewrite <- (take_drop k clock) at 1. rewrite requests_app.
    assert (Hk : length (take k clock) = k) by (rewrite length_take; lia).
    rewrite (requests_in_window ip w (take k clock) c tb Hb);
      [| rewrite Hk; lia | by apply Forall_take].
    cbn [fst snd]. rewrite Hk.
    destruct (decide (k = length clock)) as [Hall|Hmore].
    + rewrite drop_ge by lia. cbn. by rewrite Hall, Nat.sub_diag.
    + erewrite requests_at_limit;
        [| apply lookup_insert_eq | lia | by apply Forall_drop].
      by rewrite length_drop.
  - assert (k = 0%nat) as -> by lia.
    rewrite (requests_at_limit ip w clock c tb Hb) by (done || lia).
    cbn [replicate app]. rewrite Nat.sub_0_r, Z.add_0_r.
    by rewrite insert_id.
Qed.

(** X1 on the sample client: after the window is used up, three more
    requests in it are rejected and the table stays as it is. *)
Lemma window_admits_up_to_limit_witness :
  requests sample_ip (replicate 3 (0%Q, 30%Q)) exhausted
  = (replicate 3 true, exhausted).
Proof.
  refine (eq_trans (window_admits_up_to_limit sample_ip 0 1000
            (replicate 3 (0%Q, 30%Q)) exhausted _ _) _).
  - vm_compute. reflexivity.
  - apply Forall_replicate. vm_compute. reflexivity.
  - vm_compute. reflexivity.
Defined.

(** X2. Window boundaries are not smoothed: a client that fills the
    rest of its window and then a whole new window has every request
    admitted, however close in time the two runs are. The window tests are
    those of the code, on the float difference of line 38. *)
Theorem burst_at_window_seam (ip : str) (w : Q) (c : Z)
    (clock1 clock2 : list (Q * Q)) (t0 t : Q) (tb : Buckets) :
  tb !! ip = Some {| count := c; reset_time := w |} →
  Z.of_nat (length clock1) = MAX_REQUESTS - c →
  Forall (λ s : Q * Q, (float_sub s.2 w < RATE_LIMIT_DURATION)%Q) clock1 →
  (RATE_LIMIT_DURATION <= float_sub t w)%Q →
  Z.of_nat (length clock2) = MAX_REQUESTS - 1 →
  Forall (λ s : Q * Q, (float_sub s.2 t < RATE_LIMIT_DURATION)%Q) clock2 →
  requests ip (clock1 ++ (t0, t) :: clock2) tb
  = (replicate (length clock1 + S (length clock2)) false,
     <[ip := {| count := MAX_REQUESTS; reset_time := t |}]> tb).
Proof.
  intros Hb Hl1 Hw1 Ht Hl2 Hw2.
  rewrite requests_app.
  rewrite (requests_in_window ip w clock1 c tb Hb) by (done || lia).
  cbn [fst snd requests].
  set (tb1 := <[ip := _]> tb).
  assert (Hbo : bucket_of ip t0 tb1
                = {| count := c + Z.of_nat (length clock1); reset_time := w |})
    by (unfold bucket_of, tb1; by rewrite lookup_insert_eq).
  rewrite is_rate_limited_reset
    by (rewrite Hbo; by apply window_elapsed_true).
  rewrite (requests_in_window ip t clock2 1);
    [| apply lookup_insert_eq | lia | done].
  unfold tb1. rewrite !insert_insert_eq.
  rewrite replicate_add. cbn [replicate].
  replace (1 + Z.of_nat (length clock2)) with MAX_REQUESTS by lia. done.
Qed.

(** X2 on the sample client: 999 requests at time 59 and a thousand at
    time 60 are all admitted. *)
Lemma burst_at_window_seam_witness :
  (requests sample_ip (late_clock ++ (60%Q, 60%Q) :: next_window_clock) opened).1
  = replicate 1999 false.
Proof.
  refine (eq_trans (f_equal fst (burst_at_window_seam sample_ip 0 1
            late_clock next_window_clock 60 60 opened _ _ _ _ _ _)) _).
  - vm_compute. reflexivity.
  - vm_compute. reflexivity.
  - apply Forall_replicate. vm_compute. reflexivity.
  - vm_compute. discriminate.
  - vm_compute. reflexivity.
  - apply Forall_replicate. vm_compute. reflexivity.
  - vm_compute. reflexivity.
Defined.

Lemma is_rate_limited_decision ip t0 now tb :
  (is_rate_limited ip t0 now tb).1 = over_limit now (bucket_of ip t0 tb).
Proof.
  unfold over_limit.
  destruct (window_elapsed now (bucket_of ip t0 tb)) eqn:He.
  - by rewrite is_rate_limited_reset.
  - destruct (Z_lt_le_dec (count (bucket_of ip t0 tb)) MAX_REQUESTS) as [Hc|Hc].
    + rewrite is_rate_limited_admit by done. cbn. symmetry. by apply Z.leb_gt.
    + rewrite is_rate_limited_reject by done. cbn. symmetry. by apply Z.leb_le.
Qed.

Lemma stale_window_elapsed ts now b :
  (ts <= now)%Q → stale ts b = true → window_elapsed now b = true.
Proof.
  intros Hle Hs%stale_true. apply window_elapsed_true.
  pose proof (float_sub_mono ts now (reset_time b) Hle).
  unfold RATE_LIMIT_DURATION in *. lra.
Qed.

Lemma stale_mono ts now b : (ts <= now)%Q → stale ts b = true → stale now b = true.
Proof.
  intros Hle Hs%stale_true. apply stale_true.
  pose proof (float_sub_mono ts now (reset_time b) Hle). lra.
Qed.

Lemma sweep_keeps_decision ip t0 ts now tb :
  (ts <= now)%Q →
  (is_rate_limited ip t0 now (cleanup_token_buckets ts tb)).1
  = (is_rate_limited ip t0 now tb).1.
Proof.
  intros Hle. rewrite !is_rate_limited_decision. unfold bucket_of.
  rewrite lookup_cleanup. destruct (tb !! ip) as [b|]; cbn; [|done].
  destruct (stale ts b) eqn:Hs; cbn; [|done].
  unfold over_limit. rewrite (stale_window_elapsed ts now b Hle Hs). cbn.
  destruct (window_elapsed now _); cbn; [done|]. reflexivity.
Qed.

Lemma check_tokens_answer describe env ip tokens tb :
  let adm := is_rate_limited ip (t_create env) (t_now env) (sweep env tb) in
  (check_tokens describe env ip tokens tb).2
  = (if adm.1 then Some (HTTPException 429 DETAIL_429)
     else if (MAX_TOKENS_PER_REQUEST <? length tokens)%nat
          then Some (HTTPException 400 DETAIL_400)
          else (validate describe env tokens).2)
  ∧ (check_tokens describe env ip tokens tb).1.2
    = (if adm.1 || (MAX_TOKENS_PER_REQUEST <? length tokens)%nat then []
       else (validate describe env tokens).1).
Proof.
  intros adm. destruct (adm.1) eqn:Hl.
  { by rewrite check_tokens_limited. }
  destruct (MAX_TOKENS_PER_REQUEST <? length tokens)%nat eqn:Hlen.
  { apply Nat.ltb_lt in Hlen. by rewrite check_tokens_oversized. }
  rewrite check_tokens_admitted; [done|].
  rewrite admission_eq. cbn [snd]. fold adm. by rewrite Hl, Hlen.
Qed.

(** X3. The sweep never changes what a request is answered: with a
    clock that does not run backwards between the sweep and the admission
    check, the reply and the outbound calls of [check_tokens] are the same
    whether or not the random draw triggers the sweep. A bucket the sweep
    removes is one whose window has elapsed, so its client is admitted
    either way. *)
Theorem sweep_does_not_change_reply (describe : Exn → str) (env : Env)
    (ip : str) (tokens : list str) (tb : Buckets) (r : Q) :
  (t_sweep env <= t_now env)%Q →
  (check_tokens describe (with_rnd env r) ip tokens tb).2
  = (check_tokens describe env ip tokens tb).2
  ∧ (check_tokens describe (with_rnd env r) ip tokens tb).1.2
    = (check_tokens describe env ip tokens tb).1.2.
Proof.
  intros Hle.
  assert (Hdec : ∀ e, t_sweep e = t_sweep env → t_now e = t_now env →
            t_create e = t_create env →
            (is_rate_limited ip (t_create e) (t_now e) (sweep e tb)).1
            = (is_rate_limited ip (t_create env) (t_now env) tb).1).
  { intros e H1 H2 H3. unfold sweep. rewrite H1, H2, H3.
    destruct (negb _); [|done]. by apply sweep_keeps_decision. }
  destruct (check_tokens_answer describe (with_rnd env r) ip tokens tb) as [-> ->].
  destruct (check_tokens_answer describe env ip tokens tb) as [-> ->].
  rewrite (Hdec (with_rnd env r)) by done. rewrite (Hdec env) by done.
  done.
Qed.

(** X3 on the sample client with a used-up window: at time 0 the sweep
    removes nothing and the request is answered 429 with or without it. *)
Lemma sweep_does_not_change_reply_witness :
  (check_tokens sample_describe (with_rnd sample_run 0) sample_ip sample_tokens
     exhausted).2
  = (check_tokens sample_describe sample_run sample_ip sample_tokens exhausted).2.
Proof.
  refine (proj1 (sweep_does_not_change_reply sample_describe sample_run sample_ip
                   sample_tokens exhausted 0 _)).
  vm_compute. discriminate.
Defined.

(** X4. A later sweep makes an earlier one redundant, so sweeping twice
    at the same time changes nothing more; and after a sweep no bucket of
    the table is stale at the time of the sweep. *)
Theorem later_sweep_subsumes_earlier (now1 now2 : Q) (tb : Buckets) :
  (now1 <= now2)%Q →
  cleanup_token_buckets now2 (cleanup_token_buckets now1 tb)
  = cleanup_token_buckets now2 tb
  ∧ ∀ ip b, cleanup_token_buckets now2 tb !! ip = Some b →
            tb !! ip = Some b
            ∧ (now2 - reset_time b < RATE_LIMIT_DURATION * 2)%Q.
Proof.
  intros Hle. split.
  - apply map_eq. intros ip. rewrite !lookup_cleanup.
    destruct (tb !! ip) as [b|]; cbn; [|done].
    destruct (stale now1 b) eqn:H1; cbn; [|done].
    by rewrite (stale_mono now1 now2 b Hle H1).
  - intros ip b. rewrite lookup_cleanup.
    destruct (tb !! ip) as [b0|]; cbn; [|done].
    destruct (stale now2 b0) eqn:Hs; [done|]. intros [= <-]. split; [done|].
    apply Qnot_le_lt. intros Hst%float_sub_stale%stale_true. congruence.
Qed.

(** X4 on a bucket opened at time 0, swept at 119 and then at 120. *)
Lemma later_sweep_subsumes_earlier_witness :
  cleanup_token_buckets 120 (cleanup_token_buckets 119 idle_table)
  = cleanup_token_buckets 120 idle_table.
Proof.
  refine (proj1 (later_sweep_subsumes_earlier 119 120 idle_table _)).
  vm_compute. discriminate.
Defined.

Lemma counted_check ip t0 now tb :
  counted tb → counted (is_rate_limited ip t0 now tb).2.
Proof.
  intros Hc ip' b'.
  destruct (decide (ip' = ip)) as [->|Hne].
  2:{ rewrite is_rate_limited_frame by done. apply Hc. }
  destruct (is_rate_limited ip t0 now tb) as [[] tb'] eqn:E; cbn [snd].
  - apply is_rate_limited_true in E as [-> _]. apply Hc.
  - apply is_rate_limited_false in E as (c & w & _ & -> & Hcase).
    rewrite lookup_insert_eq. intros [= <-]. cbn [count].
    destruct Hcase as [(_ & -> & _)|(_ & -> & _)]; [done|].
    unfold bucket_of. destruct (tb !! ip) as [b|] eqn:Eb; cbn; [|done].
    specialize (Hc _ _ Eb). lia.
Qed.

Lemma reachable_counted tb : reachable tb → counted tb.
Proof.
  induction 1 as [|ip t0 now tb _ IH|now tb _ IH].
  - intros ip b. by rewrite lookup_empty.
  - by apply counted_check.
  - intros ip b. rewrite lookup_cleanup.
    destruct (tb !! ip) as [b0|] eqn:Eb; cbn; [|done].
    destruct (stale now b0); [done|]. intros [= <-]. by apply (IH ip).
Qed.

(** X5. A bucket is only ever stored by a request that is then counted:
    in every table the process can reach every count is at least 1, and
    every request, whatever its answer, leaves its client with a bucket
    whose count lies between 1 and [MAX_REQUESTS]. *)
Theorem stored_buckets_have_counted (tb : Buckets) (Hreach : reachable tb)
    (describe : Exn → str) (env : Env) (ip : str) (tokens : list str) :
  (∀ ip' b, tb !! ip' = Some b → 1 <= count b)
  ∧ ∃ b, (check_tokens describe env ip tokens tb).1.1 !! ip = Some b
         ∧ 1 <= count b <= MAX_REQUESTS.
Proof.
  split; [apply (reachable_counted tb Hreach)|].
  pose proof (check_tokens_reachable describe env ip tokens tb Hreach) as Hr.
  rewrite check_tokens_table in Hr |- *.
  set (adm := is_rate_limited ip (t_create env) (t_now env) (sweep env tb)) in *.
  assert (Hsome : is_Some (adm.2 !! ip)).
  { destruct adm as [[] tb'] eqn:E; cbn [snd].
    - apply is_rate_limited_true in E as (-> & b & Hb & _). by rewrite Hb.
    - apply is_rate_limited_false in E as (c & w & _ & -> & _).
      by rewrite lookup_insert_eq. }
  destruct Hsome as [b Hb]. exists b. split; [done|].
  pose proof (reachable_counted _ Hr ip b Hb).
  pose proof (reachable_bounded _ Hr ip b Hb). lia.
Qed.

(** X5 on the table of the sample client after its first request. *)
Lemma stored_buckets_have_counted_witness :
  reachable opened
  ∧ ∃ b, (check_tokens sample_describe sample_run sample_ip sample_tokens
            opened).1.1 !! sample_ip = Some b
         ∧ 1 <= count b <= MAX_REQUESTS.
Proof.
  assert (Hreach : reachable opened) by apply reach_check, reach_start.
  split; [exact Hreach|].
  exact (proj2 (stored_buckets_have_counted opened Hreach sample_describe
                  sample_run sample_ip sample_tokens)).
Defined.

(** * Further properties of the batch validator *)

Local Open Scope nat_scope.

Lemma lstrip_nil_iff s : lstrip s = [] ↔ all_space s.
Proof.
  unfold all_space. induction s as [|c s IH]; cbn.
  - split; [constructor | done].
  - destruct (is_space c) eqn:E.
    + rewrite IH. split; [by constructor | by inversion 1].
    + split; [done|]. inversion 1; congruence.
Qed.

Lemma lstrip_all_space s : all_space (lstrip s) → lstrip s = [].
Proof.
  pose proof (lstrip_head_ok s) as H. destruct (lstrip s) as [|c u]; [done|].
  cbn in H. inversion 1; congruence.
Qed.

(** X6. The test [not token.strip()] holds exactly of the tokens made of
    white space only (the empty token among them), so a token of the batch
    is scheduled, trimmed, exactly when it has a character that is not
    white space. *)
Theorem blank_iff_all_space (t : str) (tokens : list str) :
  (blank t ↔ all_space t)
  ∧ (t ∈ tokens → (strip t ∈ make_tasks tokens ↔ ¬ all_space t)).
Proof.
  assert (Hb : ∀ s, blank s ↔ all_space s).
  { intros s. unfold blank, strip, rstrip. split.
    - intros H. apply (f_equal (@rev N)) in H. rewrite rev_involutive in H.
      cbn in H. apply lstrip_nil_iff in H.
      apply lstrip_nil_iff, lstrip_all_space.
      unfold all_space in *. rewrite Forall_forall in H |- *.
      intros c Hc. apply H. by apply list_elem_of_In, in_rev,
        list_elem_of_In; rewrite rev_involutive.
    - intros H%lstrip_nil_iff. by rewrite H. }
  split; [apply Hb|]. intros Hin. rewrite <- Hb. unfold blank.
  rewrite make_tasks_filter, list_elem_of_fmap. split.
  - intros (u & Hu & [Hne _]%list_elem_of_filter). by rewrite Hu.
  - intros Hne. exists t. split; [done|]. by apply list_elem_of_filter.
Qed.

(** X6 on a token of two spaces and on the sample batch. *)
Lemma blank_iff_all_space_witness :
  blank (lit "  ") ∧ strip (lit " a ") ∈ make_tasks sample_tokens.
Proof.
  split.
  - apply (blank_iff_all_space (lit "  ") []). repeat constructor.
  - apply (blank_iff_all_space (lit " a ") sample_tokens).
    + set_solver.
    + intros H. inversion H as [|? ? _ H']. inversion H' as [|? ? Ha _].
      discriminate Ha.
Defined.

Lemma make_tasks_fmap tokens :
  make_tasks tokens = filter (λ s, s ≠ []) (strip <$> tokens).
Proof.
  induction tokens as [|t tokens IH]; [done|]. cbn [make_tasks fmap list_fmap].
  destruct (is_empty (strip t)) eqn:E.
  - apply is_empty_true in E. rewrite filter_cons_False by (by intros ?). done.
  - apply is_empty_false in E. rewrite filter_cons_True by done. by rewrite IH.
Qed.

(** X7. The endpoint reads tokens up to surrounding white space: two
    batches whose tokens agree after trimming get the same reply, the
    same outbound calls and the same table. *)
Theorem padding_is_ignored (describe : Exn → str) (env : Env) (ip : str)
    (tokens tokens' : list str) (tb : Buckets) :
  strip <$> tokens = strip <$> tokens' →
  check_tokens describe env ip tokens tb = check_tokens describe env ip tokens' tb.
Proof.
  intros Heq.
  assert (Hlen : length tokens = length tokens')
    by (rewrite <- (length_fmap strip tokens), Heq; apply length_fmap).
  assert (Htasks : make_tasks tokens = make_tasks tokens')
    by (by rewrite !make_tasks_fmap, Heq).
  unfold check_tokens. rewrite !admission_eq, Hlen. cbn [fst snd].
  unfold validate. by rewrite Htasks.
Qed.

(** X7 on the sample batch and its trimmed form. *)
Lemma padding_is_ignored_witness :
  check_tokens sample_describe sample_run sample_ip sample_tokens ∅
  = check_tokens sample_describe sample_run sample_ip [lit "a"; []; lit "b"] ∅.
Proof.
  apply (padding_is_ignored sample_describe sample_run sample_ip
           sample_tokens [lit "a"; []; lit "b"] ∅).
  reflexivity.
Defined.

Section ReplyFacts.

Variable describe : Exn → str.

(** Whenever the endpoint returns results, they are the entries of the
    scheduled tasks in task order. *)
Lemma reply_entries env ip tokens tb rs :
  (check_tokens describe env ip tokens tb).2 = Some (Results rs) →
  rs = imap (λ k token, entry describe token (world env k)) (make_tasks tokens).
Proof.
  destruct (check_tokens_answer describe env ip tokens tb) as [-> _].
  cbn zeta. repeat case_match; try done.
  unfold validate. destruct (gather_fault env); [done|]. cbn [snd].
  destruct (gather _ _) as [results|] eqn:Eg; [|done].
  intros [= <-]. apply mapM_Some_1 in Eg.
  apply list_eq. intros k.
  rewrite list_lookup_fmap, list_lookup_imap.
  destruct (make_tasks tokens !! k) as [token|] eqn:Ek; cbn.
  - assert (Hlt : k < length (make_tasks tokens)) by (by eapply lookup_lt_Some).
    destruct (Forall2_lookup_l _ _ _ k k Eg) as (y & Hy & Hout);
      [by apply lookup_seq_lt|].
    rewrite Hy. cbn.
    apply run_loop_outcomes_Some in Hout as (token' & Hk' & ->).
    rewrite Ek in Hk'. by injection Hk' as <-.
  - apply Forall2_length in Eg. rewrite length_seq in Eg.
    apply lookup_ge_None in Ek. rewrite lookup_ge_None_2 by lia. done.
Qed.

Lemma guarded_exchange_message token p :
  message (guarded_exchange describe token p) ≠ MSG_EMPTY.
Proof.
  destruct (credential_of p) as [c|] eqn:Ec.
  - by rewrite (guarded_exchange_accepted describe _ _ _ Ec).
  - unfold guarded_exchange.
    destruct (exchange_refused token p Ec) as [[e ->]| ->]; [|done].
    by destruct (is_timeout e).
Qed.

Lemma entry_scheduled token w :
  token ≠ [] → strip token = token →
  message (entry describe token w) ≠ MSG_EMPTY
  ∧ (is_valid (entry describe token w) = true →
       setup_fault w = None
       ∧ ∃ c, credential_of (post w) = Some c
              ∧ entry describe token w = valid_result c token)
  ∧ (is_valid (entry describe token w) = false →
       ∃ reason, entry describe token w = invalid_result reason).
Proof.
  intros Hne Hs. destruct (setup_fault w) as [e|] eqn:Ew.
  { rewrite (entry_fault describe _ _ _ Ew). split; [done|].
    split; [done | eauto]. }
  assert (Hne' : strip token ≠ []) by (by rewrite Hs).
  rewrite (entry_posted describe _ _ Ew Hne'), Hs.
  split; [apply guarded_exchange_message|].
  destruct (credential_of (post w)) as [c|] eqn:Ec.
  - rewrite (guarded_exchange_accepted describe _ _ _ Ec).
    split; [eauto | done].
  - destruct (guarded_exchange_refused describe token _ Ec) as [msg ->].
    split; [done | eauto].
Qed.

End ReplyFacts.

(** X8. The reason "Token为空" never reaches a caller of the endpoint:
    blank tokens are dropped before any task is made, so no entry of any
    reply carries the message of the empty-token branch of [check_token]. *)
Theorem reply_never_reports_empty (describe : Exn → str) (env : Env)
    (ip : str) (tokens : list str) (tb : Buckets) (rs : list Result) (r : Result) :
  (check_tokens describe env ip tokens tb).2 = Some (Results rs) →
  r ∈ rs → message r ≠ MSG_EMPTY.
Proof.
  intros Hrs%reply_entries (k & Hk)%list_elem_of_lookup. subst rs.
  rewrite list_lookup_imap in Hk.
  destruct (make_tasks tokens !! k) as [token|] eqn:Et; [|done].
  injection Hk as <-. destruct (make_tasks_trimmed _ _ _ Et) as [Hne Hs].
  by apply entry_scheduled.
Qed.

(** X8 on the sample batch, whose second token is blank. *)
Lemma reply_never_reports_empty_witness :
  (check_tokens sample_describe sample_run sample_ip sample_tokens ∅).2
  = Some (Results [accepted (lit "a"); accepted (lit "b")])
  ∧ message (accepted (lit "a")) ≠ MSG_EMPTY.
Proof.
  assert (Hrs : (check_tokens sample_describe sample_run sample_ip
                   sample_tokens ∅).2
                = Some (Results [accepted (lit "a"); accepted (lit "b")]))
    by (vm_compute; reflexivity).
  split; [exact Hrs|].
  apply (reply_never_reports_empty sample_describe sample_run sample_ip
           sample_tokens ∅ _ _ Hrs).
  set_solver.
Defined.

(** X9. A reply never vouches for a token that was not submitted: a
    valid entry at index [k] carries the trimmed, non-empty form of the
    [k]-th non-blank token of the batch, together with the value of the
    field [access_token] the authority sent for it; an entry that is not
    valid carries neither token nor credential. *)
Theorem valid_entries_echo_submitted_tokens (describe : Exn → str) (env : Env)
    (ip : str) (tokens : list str) (tb : Buckets) (rs : list Result)
    (k : nat) (r : Result) :
  (check_tokens describe env ip tokens tb).2 = Some (Results rs) →
  rs !! k = Some r →
  (is_valid r = true →
     ∃ p t c, task_positions 0 tokens !! k = Some p ∧ tokens !! p = Some t
              ∧ strip t ≠ []
              ∧ credential_of (post (world env k)) = Some c
              ∧ r = valid_result c (strip t))
  ∧ (is_valid r = false → refresh_token r = None ∧ access_token r = JNull).
Proof.
  intros Hrs%reply_entries Hk. subst rs. rewrite list_lookup_imap in Hk.
  destruct (make_tasks tokens !! k) as [token|] eqn:Et; [|done].
  injection Hk as <-. destruct (make_tasks_trimmed _ _ _ Et) as [Hne Hs].
  destruct (entry_scheduled describe token (world env k) Hne Hs)
    as (_ & Hv & Hi).
  split.
  - intros (_ & c & Hc & ->)%Hv.
    assert (Hlt : k < length (task_positions 0 tokens)).
    { rewrite make_tasks_positions. by eapply lookup_lt_Some. }
    apply lookup_lt_is_Some in Hlt as [p Hp].
    destruct (task_positions_lookup _ _ _ Hp) as (t & Ht & Hnb & Hk').
    rewrite Et in Hk'. injection Hk' as ->. by exists p, t, c.
  - intros [reason ->]%Hi. done.
Qed.

(** X9 on the sample batch: the entry at index 1 is valid and carries the
    third token. *)
Lemma valid_entries_echo_submitted_tokens_witness :
  ∃ p t c, task_positions 0 sample_tokens !! 1 = Some p
           ∧ sample_tokens !! p = Some t ∧ strip t ≠ []
           ∧ credential_of (post (world sample_run 1)) = Some c
           ∧ accepted (lit "b") = valid_result c (strip t).
Proof.
  refine (proj1 (valid_entries_echo_submitted_tokens sample_describe sample_run
                   sample_ip sample_tokens ∅
                   [accepted (lit "a"); accepted (lit "b")] 1
                   (accepted (lit "b")) _ _) _).
  - vm_compute. reflexivity.
  - reflexivity.
  - reflexivity.
Defined.

Lemma task_events_app k tr1 tr2 :
  task_events k (tr1 ++ tr2) = task_events k tr1 ++ task_events k tr2.
Proof. unfold task_events. by rewrite filter_app, fmap_app. Qed.

Lemma task_events_tagged k a (evs : list Event) :
  task_events k ((λ ev, (a, ev)) <$> evs) = if decide (k = a) then evs else [].
Proof.
  unfold task_events. destruct (decide (k = a)) as [->|Hne].
  - induction evs as [|ev evs IH]; cbn [fmap list_fmap]; [done|].
    rewrite filter_cons_True by done. cbn. by rewrite IH.
  - induction evs as [|ev evs IH]; cbn [fmap list_fmap]; [done|].
    by rewrite filter_cons_False by (cbn; congruence).
Qed.

Lemma posted_app tr1 tr2 : posted (tr1 ++ tr2) = posted tr1 ++ posted tr2.
Proof. unfold posted. apply omap_app. Qed.

Section TraceFacts.

Variable describe : Exn → str.
Variable tasks : list str.
Variable world : nat → TaskWorld.

Lemma start_events l a k :
  task_events k (trace (start describe tasks world l a))
  = task_events k (trace l)
    ++ (if decide (k = a)
        then match tasks !! a with
             | Some token => first_events describe token (world a)
             | None => []
             end
        else []).
Proof.
  unfold start. destruct (tasks !! a) as [token|]; cbn [trace].
  - by rewrite task_events_app, task_events_tagged.
  - case_decide; by rewrite app_nil_r.
Qed.

Lemma started_prefix_events n k :
  task_events k
    (trace (foldl (start describe tasks world) {| outcomes := ∅; trace := [] |}
                  (seq 0 n)))
  = if decide (k < n)
    then match tasks !! k with
         | Some token => first_events describe token (world k)
         | None => []
         end
    else [].
Proof.
  induction n as [|n IH] in k |- *.
  - cbn. case_decide; [lia | done].
  - rewrite seq_S, foldl_app. cbn [foldl Nat.add].
    rewrite start_events, IH.
    repeat case_decide; subst; rewrite ?app_nil_r; (done || lia).
Qed.

Lemma started_settled : settled describe tasks world (started describe tasks world).
Proof.
  intros k. rewrite started_outcomes. unfold started, early.
  rewrite started_prefix_events.
  destruct (tasks !! k) as [token|] eqn:Et; cbn.
  - rewrite decide_True by (by eapply lookup_lt_Some).
    unfold first_events. by destruct (awaits_post token (world k)).
  - by case_decide.
Qed.

Lemma finish_settled l a :
  settled describe tasks world l →
  settled describe tasks world (finish describe tasks world l a).
Proof.
  intros Hl k. specialize (Hl k) as Hk. unfold finish.
  destruct (tasks !! a) as [token|] eqn:Et; [|done].
  destruct (outcomes l !! a) as [o|] eqn:Eo; [done|].
  cbn [outcomes trace]. rewrite task_events_app.
  change [(a, ERelease)] with ((λ ev, (a, ev)) <$> [ERelease]).
  rewrite task_events_tagged.
  destruct (decide (k = a)) as [->|Hne].
  - rewrite Et in Hk |- *. rewrite lookup_insert_eq.
    destruct (awaits_post token (world a)).
    + rewrite Hk, Eo. by rewrite app_nil_r.
    + destruct Hk as [_ [? ?]]. congruence.
  - rewrite lookup_insert_ne by done. rewrite app_nil_r. done.
Qed.

Lemma run_loop_settled order :
  settled describe tasks world (run_loop describe tasks world order).
Proof.
  unfold run_loop. pose proof started_settled as H0.
  revert H0. generalize (started describe tasks world).
  induction order as [|a order IH]; intros l Hl; cbn [foldl]; [done|].
  apply IH. by apply finish_settled.
Qed.

Lemma run_loop_no_tasks order :
  tasks = [] → run_loop describe tasks world order = {| outcomes := ∅; trace := [] |}.
Proof.
  intros ->. unfold run_loop, started. cbn [length seq foldl].
  generalize {| outcomes := ∅; trace := [] |}.
  induction order as [|a order IH]; intros l; cbn [foldl]; [done|].
  by rewrite IH.
Qed.

End TraceFacts.

(** X10. No retries and no leaked semaphore unit: in the run of an
    admitted batch every task has entered the semaphore once. A task whose
    client context failed has left it again without posting. Every other
    task has posted its trimmed token once, and has left the semaphore,
    once, exactly when it has finished: a task still waiting for its
    response holds its unit. This holds whatever the order of
    completion. *)
Theorem one_round_per_task (describe : Exn → str) (env : Env) (ip : str)
    (tokens : list str) (tb : Buckets) (k : nat) (token : str) :
  (admission env ip tokens tb).2 = None →
  make_tasks tokens !! k = Some token →
  task_events k (check_tokens describe env ip tokens tb).1.2
  = match setup_fault (world env k) with
    | Some _ => [EAcquire; ERelease]
    | None =>
        if decide (k ∈ completion env)
        then [EAcquire; EPost token; ERelease]
        else [EAcquire; EPost token]
    end.
Proof.
  intros Hadm Hk. rewrite check_tokens_admitted by done. cbn [fst snd].
  rewrite validate_trace.
  pose proof (run_loop_settled describe (make_tasks tokens) (world env)
                (completion env) k) as Hs.
  rewrite Hk in Hs.
  destruct (make_tasks_trimmed _ _ _ Hk) as [Hne Hst].
  rewrite run_loop_outcomes in Hs. unfold early in Hs. rewrite Hk in Hs.
  cbn in Hs. unfold awaits_post, check_token in Hs.
  destruct (setup_fault (world env k)); [by destruct Hs|].
  rewrite Hst in Hs. apply is_empty_false in Hne. rewrite Hne in Hs.
  cbn in Hs. rewrite Hs. by case_decide.
Qed.

(** X10 on the sample batch, whose task 1 (token "b") finishes first,
    and on the same batch when task 0 has not finished. *)
Lemma one_round_per_task_witness :
  task_events 1
    (check_tokens sample_describe sample_run sample_ip sample_tokens ∅).1.2
  = [EAcquire; EPost (lit "b"); ERelease]
  ∧ task_events 0
      (check_tokens sample_describe (sample_env [1] None) sample_ip
         sample_tokens ∅).1.2
    = [EAcquire; EPost (lit "a")].
Proof.
  split.
  - refine (eq_trans (one_round_per_task sample_describe sample_run sample_ip
              sample_tokens ∅ 1 (lit "b") _ _) _).
    + vm_compute. reflexivity.
    + reflexivity.
    + reflexivity.
  - refine (eq_trans (one_round_per_task sample_describe (sample_env [1] None)
              sample_ip sample_tokens ∅ 0 (lit "a") _ _) _).
    + vm_compute. reflexivity.
    + reflexivity.
    + reflexivity.
Defined.

Lemma make_tasks_blank tokens : Forall blank tokens → make_tasks tokens = [].
Proof.
  induction 1 as [|t tokens Ht _ IH]; [done|]. cbn [make_tasks].
  unfold blank in Ht. by rewrite Ht.
Qed.

(** X11. A batch without any non-blank token, the empty batch included,
    that passes admission makes no task: nothing enters the semaphore and
    nothing is posted, whatever the order of completion. It is answered
    with the empty list when the gather of no task returns, and with the
    error 500 if the gather itself raises; either way the request has been
    counted against the client's allowance. *)
Theorem blank_batch_is_answered_empty (describe : Exn → str) (env : Env)
    (ip : str) (tokens : list str) (tb : Buckets) :
  Forall blank tokens →
  (admission env ip tokens tb).2 = None →
  check_tokens describe env ip tokens tb
  = ((is_rate_limited ip (t_create env) (t_now env) (sweep env tb)).2, [],
     Some (match gather_fault env with
           | None => Results []
           | Some _ => HTTPException 500 DETAIL_500
           end))
  ∧ (is_rate_limited ip (t_create env) (t_now env) (sweep env tb)).1 = false.
Proof.
  intros Hb Hadm.
  pose proof (make_tasks_blank tokens Hb) as Ht.
  split.
  - rewrite check_tokens_admitted by done. rewrite admission_eq. cbn [fst snd].
    unfold validate. rewrite run_loop_no_tasks by done.
    destruct (gather_fault env); [done|]. by rewrite Ht.
  - rewrite admission_eq in Hadm. cbn [snd] in Hadm.
    by destruct (is_rate_limited _ _ _ _).1.
Qed.

(** X11 on the empty batch of a new client. *)
Lemma blank_batch_is_answered_empty_witness :
  check_tokens sample_describe sample_run sample_ip [] ∅
  = (opened, [], Some (Results [])).
Proof.
  refine (proj1 (blank_batch_is_answered_empty sample_describe sample_run
                   sample_ip [] ∅ _ _)).
  - constructor.
  - vm_compute. reflexivity.
Defined.

(** * Further properties of the concurrency gate *)

Lemma step_arrivals sys a sys' :
  step sys a = Some sys' → length sys' = length sys + arrivals [a].
Proof.
  destruct a as [tokens|i|i]; cbn [step arrivals].
  - destruct (MAX_TOKENS_PER_REQUEST <? length tokens); [done|].
    intros [= <-]. rewrite length_app. cbn. lia.
  - destruct (sys !! i) as [b|]; cbn; [|done].
    destruct (acquire b); cbn; [|done]. intros [= <-].
    rewrite length_insert. lia.
  - destruct (sys !! i) as [b|]; cbn; [|done].
    destruct (release b); cbn; [|done]. intros [= <-].
    rewrite length_insert. lia.
Qed.

Lemma run_arrivals actions : ∀ sys sys',
  run sys actions = Some sys' → length sys' = length sys + arrivals actions.
Proof.
  induction actions as [|a actions IH]; intros sys sys'; cbn [run].
  - intros [= <-]. cbn. lia.
  - destruct (step sys a) as [sys1|] eqn:E; cbn; [|done].
    intros H. rewrite (IH _ _ H), (step_arrivals _ _ _ E).
    destruct a; cbn; lia.
Qed.

Lemma gate_ok_total sys :
  Forall gate_ok sys → total_in_flight sys ≤ MAX_TOKENS_PER_REQUEST * length sys.
Proof.
  unfold total_in_flight.
  induction 1 as [|b sys [_ Hb] _ IH]; cbn; [lia|].
  change (sum_list_with id ?l) with (sum_list l).
  unfold MAX_TOKENS_PER_REQUEST in *. lia.
Qed.

(** X12. What bounds the calls in flight is the number of requests being
    served: with [n] requests having passed admission, at most
    [MAX_TOKENS_PER_REQUEST * n] calls are in flight in all, each request
    holding at most [MAX_TOKENS_PER_REQUEST] of them. *)
Theorem in_flight_bounded_by_requests (actions : list Action) (sys : list Batch) :
  run [] actions = Some sys →
  length sys = arrivals actions
  ∧ total_in_flight sys ≤ MAX_TOKENS_PER_REQUEST * arrivals actions.
Proof.
  intros Hrun.
  pose proof (run_arrivals actions [] sys Hrun) as Hlen. cbn in Hlen.
  split; [done|]. rewrite <- Hlen. apply gate_ok_total.
  by apply (run_ok actions [] sys (Forall_nil_2 _)).
Qed.

(** X12 on two full requests with all their tasks inside their
    semaphores: ten calls in flight, the bound. *)
Lemma in_flight_bounded_by_requests_witness :
  run [] (flood 2) = Some two_full
  ∧ total_in_flight two_full = 10
  ∧ total_in_flight two_full ≤ MAX_TOKENS_PER_REQUEST * arrivals (flood 2).
Proof.
  assert (Hrun : run [] (flood 2) = Some two_full) by (vm_compute; reflexivity).
  split; [exact Hrun|]. split; [reflexivity|].
  exact (proj2 (in_flight_bounded_by_requests (flood 2) two_full Hrun)).
Defined.

(** * Further properties: the load on the authority *)

Section LoadFacts.

Variable describe : Exn → str.

Lemma first_events_posts token w k :
  length (posted ((λ ev, (k, ev)) <$> first_events describe token w)) ≤ 1.
Proof.
  unfold first_events, check_token, awaits_post.
  destruct (setup_fault w); cbn; [lia|].
  destruct (is_empty (strip token)); cbn; lia.
Qed.

Lemma start_posts tasks world l a :
  length (posted (trace (start describe tasks world l a)))
  ≤ S (length (posted (trace l))).
Proof.
  unfold start. destruct (tasks !! a) as [token|]; [|lia]. cbn [trace].
  rewrite posted_app, length_app.
  pose proof (first_events_posts token (world a) a). lia.
Qed.

Lemma finish_posts tasks world l a :
  posted (trace (finish describe tasks world l a)) = posted (trace l).
Proof.
  unfold finish. destruct (tasks !! a) as [token|]; [|done].
  destruct (outcomes l !! a); [done|]. cbn [trace].
  rewrite posted_app. cbn. by rewrite app_nil_r.
Qed.

(** A task posts when it starts, and at most once. *)
Lemma run_loop_posts tasks world order :
  length (posted (trace (run_loop describe tasks world order))) ≤ length tasks.
Proof.
  unfold run_loop.
  assert (H0 : length (posted (trace (started describe tasks world)))
               ≤ length tasks).
  { assert (H0 : ∀ ks l,
              length (posted (trace (foldl (start describe tasks world) l ks)))
              ≤ length (posted (trace l)) + length ks).
    { induction ks as [|a ks IH]; intros l; cbn [foldl length]; [lia|].
      specialize (IH (start describe tasks world l a)).
      pose proof (start_posts tasks world l a). lia. }
    specialize (H0 (seq 0 (length tasks)) {| outcomes := ∅; trace := [] |}).
    rewrite length_seq in H0. exact H0. }
  revert H0. generalize (started describe tasks world).
  induction order as [|a order IH]; intros l Hl; cbn [foldl]; [done|].
  apply IH. by rewrite finish_posts.
Qed.

(** One request posts at most [MAX_TOKENS_PER_REQUEST] tokens, and none
    when it is rejected. *)
Lemma check_tokens_posts env ip tokens tb :
  length (posted (check_tokens describe env ip tokens tb).1.2)
  ≤ (if (is_rate_limited ip (t_create env) (t_now env) (sweep env tb)).1
     then 0 else MAX_TOKENS_PER_REQUEST).
Proof.
  destruct (check_tokens_answer describe env ip tokens tb) as [_ ->].
  cbn zeta. destruct (is_rate_limited _ _ _ _).1; cbn [orb];
    [apply Nat.le_0_l|].
  destruct (MAX_TOKENS_PER_REQUEST <? length tokens) eqn:Hlen;
    [apply Nat.le_0_l|].
  apply Nat.ltb_ge in Hlen. rewrite validate_trace.
  pose proof (run_loop_posts (make_tasks tokens) (world env) (completion env)).
  pose proof (make_tasks_length tokens). lia.
Qed.

Lemma sweep_keeps_window (env : Env) (tb : Buckets) (ip : str) (b : Bucket) :
  tb !! ip = Some b →
  (float_sub (t_sweep env) (reset_time b) < RATE_LIMIT_DURATION * 2)%Q →
  sweep env tb !! ip = Some b.
Proof.
  intros Hb Hw%stale_false. unfold sweep. destruct (negb _); [|done].
  rewrite lookup_cleanup, Hb. cbn. by rewrite Hw.
Qed.

(** While its window lasts, a client's bucket keeps its window start and
    counts the client's admitted requests, and the client's POSTs stay
    within five per unit of allowance left. The admission check of a
    request runs before its first suspension, so the table sees the
    requests one after the other, in the order [serve] takes them. *)
Lemma serve_in_window ip w reqs : ∀ c (tb : Buckets),
  tb !! ip = Some {| count := c; reset_time := w |} →
  Forall (in_window ip w) reqs →
  client_posts ip (serve describe reqs tb).1
  ≤ MAX_TOKENS_PER_REQUEST * Z.to_nat (MAX_REQUESTS - c).
Proof.
  induction reqs as [|req reqs IH]; intros c tb Hb Hw.
  { cbn. lia. }
  apply Forall_cons in Hw as [[Hsw Hnow] Hw]. cbn [serve].
  pose proof (check_tokens_table describe (outside req) (client req) (batch req) tb)
    as Htb.
  pose proof (check_tokens_posts (outside req) (client req) (batch req) tb) as Hp.
  destruct (check_tokens describe (outside req) (client req) (batch req) tb)
    as [[tb1 tr] reply].
  cbn [fst snd] in Htb, Hp. subst tb1.
  pose proof (sweep_keeps_window (outside req) tb ip _ Hb Hsw) as Hsb.
  assert (Hsum : ∀ served,
            client_posts ip ((client req, tr, reply) :: served)
            = (if decide (client req = ip) then length (posted tr) else 0)
              + client_posts ip served) by (intros; reflexivity).
  destruct (decide (client req = ip)) as [Hip|Hne].
  - specialize (Hnow Hip). rewrite Hip in Hp, Hsum |- *.
    set (t0 := t_create (outside req)) in *.
    set (now := t_now (outside req)) in *.
    set (tbs := sweep (outside req) tb) in *.
    assert (Hbo : bucket_of ip t0 tbs = {| count := c; reset_time := w |})
      by (unfold bucket_of; by rewrite Hsb).
    assert (He : window_elapsed now (bucket_of ip t0 tbs) = false)
      by (rewrite Hbo; by apply window_elapsed_false).
    destruct (Z_lt_le_dec c MAX_REQUESTS) as [Hc|Hc].
    + assert (Hlt : (count (bucket_of ip t0 tbs) < MAX_REQUESTS)%Z)
        by (by rewrite Hbo).
      rewrite (is_rate_limited_admit ip t0 now tbs He Hlt) in Hp |- *.
      rewrite Hbo. cbn [fst snd count reset_time] in Hp |- *.
      specialize (IH (c + 1)%Z _ (lookup_insert_eq tbs ip _) Hw).
      destruct (serve describe reqs _) as [served tb2]. cbn [fst] in *.
      rewrite (Hsum served). unfold MAX_TOKENS_PER_REQUEST in *. lia.
    + assert (Hge : (MAX_REQUESTS <= count (bucket_of ip t0 tbs))%Z)
        by (by rewrite Hbo).
      rewrite (is_rate_limited_reject ip t0 now tbs He Hge) in Hp |- *.
      rewrite Hbo, insert_id by done. cbn [fst snd] in Hp |- *.
      specialize (IH c _ Hsb Hw).
      destruct (serve describe reqs _) as [served tb2]. cbn [fst] in *.
      rewrite (Hsum served). unfold MAX_TOKENS_PER_REQUEST in *. lia.
  - assert (Hkeep :
      (is_rate_limited (client req) (t_create (outside req))
         (t_now (outside req)) (sweep (outside req) tb)).2 !! ip
      = Some {| count := c; reset_time := w |}).
    { rewrite is_rate_limited_frame by done. exact Hsb. }
    specialize (IH c _ Hkeep Hw).
    destruct (serve describe reqs _) as [served tb2]. cbn [fst] in *.
    rewrite (Hsum served). unfold MAX_TOKENS_PER_REQUEST in *. lia.
Qed.

End LoadFacts.

(** X13. The two admission limits together bound what one client can
    make the service send to the authority: while a window lasts (no sweep
    finds the client's bucket stale and no check of the client finds the
    window elapsed, by the float differences of lines 120 and 38), whatever
    other clients do in between, the requests of a client whose bucket
    counts [c] cause at most [MAX_TOKENS_PER_REQUEST] POSTs for each of the
    [MAX_REQUESTS - c] requests still allowed, and none once the allowance
    is used up. *)
Theorem client_load_per_window (describe : Exn → str) (ip : str) (w : Q) (c : Z)
    (reqs : list Request) (tb : Buckets) :
  tb !! ip = Some {| count := c; reset_time := w |} →
  Forall (in_window ip w) reqs →
  client_posts ip (serve describe reqs tb).1
  ≤ MAX_TOKENS_PER_REQUEST * Z.to_nat (MAX_REQUESTS - c)
  ∧ ((MAX_REQUESTS <= c)%Z → client_posts ip (serve describe reqs tb).1 = 0).
Proof.
  intros Hb Hw.
  pose proof (serve_in_window describe ip w reqs c tb Hb Hw) as H.
  split; [done|]. intros Hc.
  replace (Z.to_nat (MAX_REQUESTS - c)) with 0 in H by lia. lia.
Qed.

(** X13 on two requests of the sample client at time 0, after its first
    one: at most 5 * 999 POSTs. *)
Lemma client_load_per_window_witness :
  client_posts sample_ip (serve sample_describe sample_requests opened).1
  ≤ MAX_TOKENS_PER_REQUEST * 999.
Proof.
  refine (proj1 (client_load_per_window sample_describe sample_ip 0 1
                   sample_requests opened _ _)).
  - vm_compute. reflexivity.
  - repeat constructor; vm_compute; reflexivity.
Defined.
